(** * MecaCell: the sphere membrane and its connection lifecycle

    A shallow embedding of [mecacell/spheremembrane.hpp]: the per-cell
    membrane queries ([getConnectedCellAndMembraneDistance],
    [compensateVolumeLoss], [computePressure], [getConnectionLength]), the
    cell-cell connection pass ([checkForCellCellConnections],
    [updateCellCellConnections], [disconnectAndDeleteAllConnections]) and the
    cell-model collision sweep ([checkForCellModelCollisions]).

    Pointers are identities: a [Cell *] is a [CellId], a connection pointer
    a [ConnId]; the objects live in finite maps of the [World].  Whatever the
    header includes but the repository does not show here ([tools.h],
    [connection.h], [cellcellconnectionmanager.hpp], the [Vec] class, the
    spatial grid, [<cmath>]) is either a field of the class [Tools], an
    argument, or a definition marked "Modelled from the spec". *)

From Stdlib Require Import QArith Qcanon Qround ZArith Lia.
From stdpp Require Import gmap list.

(** ** [float_t]

    Finite values are exact rationals (the rounding error of the machine
    format is not modelled); the three special values follow IEEE 754, so a
    division by zero is visible as an infinity or a NaN and a comparison with
    a NaN is false.  Zero is unsigned and is read as +0. *)

Inductive float_t : Type :=
| Fin (q : Qc)
| PInf
| NInf
| NaN.

Declare Scope float_scope.
Delimit Scope float_scope with F.
Bind Scope float_scope with float_t.

Module Float.

Definition of_Q (q : Q) : float_t := Fin (Q2Qc q).
Definition zero : float_t := Fin 0%Qc.
Definition one : float_t := Fin 1%Qc.

Definition is_nan (a : float_t) : bool :=
  match a with NaN => true | _ => false end.

Definition is_finite (a : float_t) : bool :=
  match a with Fin _ => true | _ => false end.

(** The infinity whose sign is the sign of [q]; [0 * inf] is a NaN. *)
Definition signed_inf (q : Qc) (pos : bool) : float_t :=
  match (q ?= 0)%Qc with
  | Gt => if pos then PInf else NInf
  | Lt => if pos then NInf else PInf
  | Eq => NaN
  end.

Definition opp (a : float_t) : float_t :=
  match a with
  | Fin q => Fin (- q)%Qc
  | PInf => NInf
  | NInf => PInf
  | NaN => NaN
  end.

Definition add (a b : float_t) : float_t :=
  match a, b with
  | NaN, _ | _, NaN => NaN
  | Fin p, Fin q => Fin (p + q)%Qc
  | PInf, NInf | NInf, PInf => NaN
  | PInf, _ | _, PInf => PInf
  | NInf, _ | _, NInf => NInf
  end.

Definition sub (a b : float_t) : float_t := add a (opp b).

Definition mul (a b : float_t) : float_t :=
  match a, b with
  | NaN, _ | _, NaN => NaN
  | Fin p, Fin q => Fin (p * q)%Qc
  | Fin p, PInf | PInf, Fin p => signed_inf p true
  | Fin p, NInf | NInf, Fin p => signed_inf p false
  | PInf, PInf | NInf, NInf => PInf
  | PInf, NInf | NInf, PInf => NaN
  end.

(** [x / 0] is an infinity of the sign of [x], and [0 / 0] a NaN. *)
Definition div (a b : float_t) : float_t :=
  match a, b with
  | NaN, _ | _, NaN => NaN
  | Fin p, Fin q =>
      match (q ?= 0)%Qc with
      | Eq => signed_inf p true
      | _ => Fin (p / q)%Qc
      end
  | Fin _, _ => Fin 0%Qc
  | PInf, Fin q => match (q ?= 0)%Qc with Lt => NInf | _ => PInf end
  | NInf, Fin q => match (q ?= 0)%Qc with Lt => PInf | _ => NInf end
  | _, _ => NaN
  end.

Definition ltb (a b : float_t) : bool :=
  match a, b with
  | NaN, _ | _, NaN => false
  | Fin p, Fin q => match (p ?= q)%Qc with Lt => true | _ => false end
  | NInf, NInf | PInf, _ | _, NInf => false
  | _, PInf | NInf, _ => true
  end.

Definition leb (a b : float_t) : bool :=
  match a, b with
  | NaN, _ | _, NaN => false
  | Fin p, Fin q => match (p ?= q)%Qc with Gt => false | _ => true end
  | NInf, _ | _, PInf => true
  | PInf, _ | _, NInf => false
  end.

Definition gtb (a b : float_t) : bool := ltb b a.

(** [std::min (a, b)] is [(b < a) ? b : a]. *)
Definition min (a b : float_t) : float_t := if ltb b a then b else a.

(** The same value: the test by which two computed values are recognised
    as equal (a NaN is the same value as a NaN). *)
Definition same (a b : float_t) : bool :=
  match a, b with
  | Fin p, Fin q => Qeq_bool p q
  | PInf, PInf | NInf, NInf | NaN, NaN => true
  | _, _ => false
  end.

End Float.

Notation "a + b" := (Float.add a b) : float_scope.
Notation "a - b" := (Float.sub a b) : float_scope.
Notation "a * b" := (Float.mul a b) : float_scope.
Notation "a / b" := (Float.div a b) : float_scope.
Notation "- a" := (Float.opp a) : float_scope.
Notation "a <? b" := (Float.ltb a b) : float_scope.
Notation "a <=? b" := (Float.leb a b) : float_scope.
Notation "a >? b" := (Float.gtb a b) : float_scope.

(** A decimal literal of the source, as the rational it denotes. *)
Definition fl (q : Q) : float_t := Float.of_Q q.
Arguments fl q%_Q.

(** [M_PI] of [<cmath>]. *)
Definition M_PI : float_t := fl 3.14159265358979323846.

(** ** [Vec] *)

(** Modelled from the spec: the [Vec] class is not among the sources; it is
    the usual three-component vector, with component-wise arithmetic in
    [V] below. *)
Record Vec : Type := mkVec { vx : float_t; vy : float_t; vz : float_t }.

Module V.
Local Open Scope float_scope.

Definition zero : Vec := mkVec Float.zero Float.zero Float.zero.
Definition add (u v : Vec) : Vec := mkVec (vx u + vx v) (vy u + vy v) (vz u + vz v).
Definition sub (u v : Vec) : Vec := mkVec (vx u - vx v) (vy u - vy v) (vz u - vz v).
Definition opp (u : Vec) : Vec := mkVec (- vx u) (- vy u) (- vz u).
Definition scale (s : float_t) (u : Vec) : Vec := mkVec (s * vx u) (s * vy u) (s * vz u).
Definition div (u : Vec) (s : float_t) : Vec := mkVec (vx u / s) (vy u / s) (vz u / s).
Definition dot (u v : Vec) : float_t := vx u * vx v + vy u * vy v + vz u * vz v.
Definition sqlength (u : Vec) : float_t := dot u u.
Definition cross (u v : Vec) : Vec :=
  mkVec (vy u * vz v - vz u * vy v)
        (vz u * vx v - vx u * vz v)
        (vx u * vy v - vy u * vx v).
Definition map (f : float_t -> float_t) (u : Vec) : Vec :=
  mkVec (f (vx u)) (f (vy u)) (f (vz u)).
Definition same (u v : Vec) : bool :=
  Float.same (vx u) (vx v) && Float.same (vy u) (vy v) && Float.same (vz u) (vz v).
End V.

(** ** Cells, membranes and connections *)

Definition CellId : Type := nat.
Definition ConnId : Type := nat.
Definition ModelId : Type := nat.
Definition MConnId : Type := nat.

(** The fields of [SphereMembrane].  [cellConnections] is
    [cccm.cellConnections], the connection pointers of the owning cell. *)
Record Membrane : Type := mkMembrane {
  cellConnections : list ConnId;
  modelConnections : list MConnId;
  baseRadius : float_t;
  radius : float_t;
  correctedRadius : float_t;
  stiffness : float_t;
  dampRatio : float_t;
  angularStiffness : float_t;
  maxTeta : float_t;
  pressure : float_t;
  volumeConservation : bool
}.

(** Modelled from the spec: the [Cell] class belongs to the caller; these
    are the members the membrane code reads and writes. *)
Record Cell : Type := mkCell {
  position : Vec;
  prevposition : Vec;
  mass : float_t;
  totalForce : float_t;
  force : Vec;
  torque : Vec;
  connectedCells : gset CellId;
  membrane : Membrane
}.

(** Modelled from the spec: [connection.h] is absent.  A spring has a
    stiffness, a damping and a rest length, and caches the current length
    and direction of its connection; a joint has a stiffness, a damping, a
    break angle and the coefficient set by [setCurrentKCoef]; a cell-cell
    connection has two nodes, one spring and a pair of joints for flexion
    and for torsion. *)
Record Spring : Type := mkSpring {
  spring_k : float_t;
  spring_c : float_t;
  spring_restLength : float_t;
  spring_length : float_t;
  spring_direction : Vec
}.

Record Joint : Type := mkJoint {
  joint_k : float_t;
  joint_c : float_t;
  joint_maxTeta : float_t;
  joint_currentKCoef : float_t
}.

Record Connection : Type := mkConnection {
  node0 : CellId;
  node1 : CellId;
  sc : Spring;
  flex : Joint * Joint;
  torsion : Joint * Joint
}.

Definition getLength (con : Connection) : float_t := spring_length (sc con).
Definition getDirection (con : Connection) : Vec := spring_direction (sc con).

(** Modelled from the spec: [modelconnection.hpp] is absent.  A
    [CellModelConnection] is an anchor, from a free point of space to the
    cell, a bounce, from a point of a mesh face to the cell, and a dirty
    mark; [cmc_id] is the address of the object. *)
Record SpaceConnectionPoint : Type := mkSCP { scp_position : Vec }.

Record ModelConnectionPoint : Type := mkMCP {
  mcp_model : ModelId;
  mcp_position : Vec;
  mcp_face : nat
}.

Record AnchorConnection : Type := mkAnchor {
  anchor_node0 : SpaceConnectionPoint;
  anchor_node1 : CellId;
  anchor_sc : Spring;
  tjEnabled : bool
}.

Record BounceConnection : Type := mkBounce {
  bounce_node0 : ModelConnectionPoint;
  bounce_node1 : CellId;
  bounce_sc : Spring
}.

Record CellModelConnection : Type := mkCMC {
  cmc_id : MConnId;
  anchor : AnchorConnection;
  bounce : BounceConnection;
  dirty : bool
}.

Record Triangle : Type := mkTriangle { indices : nat * nat * nat }.

Record Model : Type := mkModel {
  vertices : list Vec;
  faces : list Triangle
}.

(** [CellModelConnectionContainer]: per mesh, per cell, the owned
    connections. *)
Abbreviation CellModelConnectionContainer :=
  (gmap ModelId (gmap CellId (list CellModelConnection))).

(** The objects the code reaches through pointers.  [container] is the
    [CellCellConnectionContainer] in vector order; it owns the connections,
    which are stored under their identity in [connections]. *)
Record World : Type := mkWorld {
  cells : gmap CellId Cell;
  connections : gmap ConnId Connection;
  container : list ConnId;
  models : gmap ModelId Model;
  cellModelConnections : CellModelConnectionContainer
}.

Definition default_membrane : Membrane :=
  mkMembrane [] [] Float.zero Float.zero Float.zero Float.zero Float.zero
             Float.zero Float.zero Float.zero true.

Definition default_spring : Spring :=
  mkSpring Float.zero Float.zero Float.zero Float.zero V.zero.

Definition default_joint : Joint :=
  mkJoint Float.zero Float.zero Float.zero Float.zero.

#[global] Instance Cell_inhabited : Inhabited Cell :=
  populate (mkCell V.zero V.zero Float.zero Float.zero V.zero V.zero ∅ default_membrane).

#[global] Instance Connection_inhabited : Inhabited Connection :=
  populate (mkConnection 0 0 default_spring (default_joint, default_joint)
                         (default_joint, default_joint)).

#[global] Instance Model_inhabited : Inhabited Model := populate (mkModel [] []).

(** Dereferencing.  A pointer to an object that is gone has no defined
    behaviour in the source; the model reads the default object there. *)
Definition cell (w : World) (c : CellId) : Cell := cells w !!! c.
Definition conn (w : World) (cc : ConnId) : Connection := connections w !!! cc.

(** *** Field updates *)

Definition set_membrane (f : Membrane -> Membrane) (c : Cell) : Cell :=
  mkCell (position c) (prevposition c) (mass c) (totalForce c) (force c)
         (torque c) (connectedCells c) (f (membrane c)).

Definition set_connectedCells (f : gset CellId -> gset CellId) (c : Cell) : Cell :=
  mkCell (position c) (prevposition c) (mass c) (totalForce c) (force c)
         (torque c) (f (connectedCells c)) (membrane c).

Definition add_force (f t : Vec) (c : Cell) : Cell :=
  mkCell (position c) (prevposition c) (mass c) (totalForce c)
         (V.add (force c) f) (V.add (torque c) t) (connectedCells c) (membrane c).

Definition set_cellConnections (f : list ConnId -> list ConnId) (m : Membrane) : Membrane :=
  mkMembrane (f (cellConnections m)) (modelConnections m) (baseRadius m)
             (radius m) (correctedRadius m) (stiffness m) (dampRatio m)
             (angularStiffness m) (maxTeta m) (pressure m) (volumeConservation m).

Definition set_modelConnections (f : list MConnId -> list MConnId) (m : Membrane) : Membrane :=
  mkMembrane (cellConnections m) (f (modelConnections m)) (baseRadius m)
             (radius m) (correctedRadius m) (stiffness m) (dampRatio m)
             (angularStiffness m) (maxTeta m) (pressure m) (volumeConservation m).

Definition set_correctedRadius (r : float_t) (m : Membrane) : Membrane :=
  mkMembrane (cellConnections m) (modelConnections m) (baseRadius m)
             (radius m) r (stiffness m) (dampRatio m)
             (angularStiffness m) (maxTeta m) (pressure m) (volumeConservation m).

Definition set_pressure (p : float_t) (m : Membrane) : Membrane :=
  mkMembrane (cellConnections m) (modelConnections m) (baseRadius m)
             (radius m) (correctedRadius m) (stiffness m) (dampRatio m)
             (angularStiffness m) (maxTeta m) p (volumeConservation m).

Definition set_sc (f : Spring -> Spring) (con : Connection) : Connection :=
  mkConnection (node0 con) (node1 con) (f (sc con)) (flex con) (torsion con).

Definition set_lengthDirection (ld : float_t * Vec) (s : Spring) : Spring :=
  mkSpring (spring_k s) (spring_c s) (spring_restLength s) (fst ld) (snd ld).

Definition setRestLength (l : float_t) (s : Spring) : Spring :=
  mkSpring (spring_k s) (spring_c s) l (spring_length s) (spring_direction s).

Definition setCurrentKCoef (kc : float_t) (j : Joint) : Joint :=
  mkJoint (joint_k j) (joint_c j) (joint_maxTeta j) kc.

Definition set_joints (kc : float_t) (con : Connection) : Connection :=
  mkConnection (node0 con) (node1 con) (sc con)
    (setCurrentKCoef kc (fst (flex con)), setCurrentKCoef kc (snd (flex con)))
    (setCurrentKCoef kc (fst (torsion con)), setCurrentKCoef kc (snd (torsion con))).

Definition upd_cells (f : gmap CellId Cell -> gmap CellId Cell) (w : World) : World :=
  mkWorld (f (cells w)) (connections w) (container w) (models w) (cellModelConnections w).

Definition upd_connections (f : gmap ConnId Connection -> gmap ConnId Connection)
    (w : World) : World :=
  mkWorld (cells w) (f (connections w)) (container w) (models w) (cellModelConnections w).

Definition upd_container (f : list ConnId -> list ConnId) (w : World) : World :=
  mkWorld (cells w) (connections w) (f (container w)) (models w) (cellModelConnections w).

Definition upd_cellModelConnections
    (f : CellModelConnectionContainer -> CellModelConnectionContainer) (w : World) : World :=
  mkWorld (cells w) (connections w) (container w) (models w) (f (cellModelConnections w)).

(** In-place mutation of one object.  Cells belong to the caller and every
    [Cell *] the code holds is live, so a write through it always lands;
    connections exist only while the container owns them. *)
Definition update_cell (c : CellId) (f : Cell -> Cell) (cs : gmap CellId Cell)
    : gmap CellId Cell :=
  <[c := f (cs !!! c)]> cs.
Definition on_cell (c : CellId) (f : Cell -> Cell) : World -> World :=
  upd_cells (update_cell c f).
Definition on_conn (cc : ConnId) (f : Connection -> Connection) : World -> World :=
  upd_connections (alter f cc).

(** ** What the header includes

    The helpers of [tools.h], [connection.h] and [<cmath>], and the methods
    of the user's [Cell] class that the membrane calls, are not among the
    sources.  They are the fields of [Tools]: every definition below is
    written against an arbitrary implementation of them.

    [roundN] rounds to a fixed decimal precision and [fuzzyEqual] compares up
    to a tolerance; [lengthDirection p0 p1] is what
    [Connection::updateLengthDirection] caches for endpoints at [p0] and
    [p1] (the current length and the direction from node 0 to node 1);
    [connectionForces dt con c0 c1] is the force and torque that
    [Connection::computeForces] adds to each endpoint. *)

Class Tools : Type := {
  roundN : float_t -> float_t;
  fuzzyEqual : float_t -> float_t -> bool;
  lengthDirection : Vec -> Vec -> float_t * Vec;
  sqrt : float_t -> float_t;
  cbrt : float_t -> float_t;
  normalized : Vec -> Vec;
  dampingFromRatio : float_t -> float_t -> float_t -> float_t;
  connectionForces : float_t -> Connection -> Cell -> Cell -> (Vec * Vec) * (Vec * Vec);
  projectionIntriangle : Vec -> Vec -> Vec -> Vec -> bool * Vec;
  getAdhesionWith : CellId -> CellId -> float_t;
  getAdhesionWithModel : CellId -> ModelId -> float_t;
  ADH_THRESHOLD : Qc;
  MAX_CELL_ADH_LENGTH : Qc;
  MIN_CELL_ADH_LENGTH : Qc
}.

(** ** The membrane *)

Section SphereMembrane.

Context {T : Tools}.
Local Open Scope float_scope.

(** Modelled from the spec: [mix] of [tools.h] is absent; the rest length
    is interpolated between its first two arguments, the third being the
    weight of the second. *)
Definition mix (a b c : float_t) : float_t := a * (Float.one - c) + c * b.

(** Modelled from the spec: the [Vec] overload of [roundN] is absent; every
    component is rounded. *)
Definition roundN_vec (v : Vec) : Vec := V.map roundN v.

(** [pow (x, 2)]. *)
Definition pow2 (x : float_t) : float_t := x * x.

(** Modelled from the spec: [connection.h] is absent;
    [updateLengthDirection] recomputes the cached length and direction of
    a connection from the positions of its two endpoints. *)
Definition updateLengthDirection (w : World) (con : Connection) : Connection :=
  set_sc (set_lengthDirection
            (lengthDirection (position (cell w (node0 con)))
                             (position (cell w (node1 con))))) con.

(** [con.updateLengthDirection ()] on the connection behind pointer [cc]. *)
Definition refresh (cc : ConnId) (w : World) : World :=
  on_conn cc (updateLengthDirection w) w.

(** The same, for each pointer of a vector in turn. *)
Definition refreshes (ccs : list ConnId) (w : World) : World :=
  fold_left (fun w cc => refresh cc w) ccs w.

(** *** [getConnectedCellAndMembraneDistance] *)

(** One iteration of the loop over [cccm.cellConnections]; [this] is the
    owning cell of the membrane and [d] the query direction. *)
Definition getConnectedCellAndMembraneDistance_step (this : CellId) (d : Vec)
    (st : (list CellId * float_t) * World) (cc : ConnId)
    : (list CellId * float_t) * World :=
  let '((closestCells, closestDist), w) := st in
  let w := refresh cc w in
  let con := conn w cc in
  let otherCell := if decide (this = node0 con) then node1 con else node0 con in
  let normal :=
    if decide (this = node0 con) then V.opp (getDirection con) else getDirection con in
  let dot := V.dot normal d in
  if dot <? Float.zero then
    let midpoint :=
      getLength con * radius (membrane (cell w this))
      / (radius (membrane (cell w this)) + radius (membrane (cell w otherCell))) in
    let l := - midpoint / dot in
    if fuzzyEqual l closestDist then ((closestCells ++ [otherCell], closestDist), w)
    else if l <? closestDist then (([otherCell], l), w)
    else ((closestCells, closestDist), w)
  else ((closestCells, closestDist), w).

Definition getConnectedCellAndMembraneDistance (this : CellId) (d : Vec) (w : World)
    : (list CellId * float_t) * World :=
  fold_left (getConnectedCellAndMembraneDistance_step this d)
            (cellConnections (membrane (cell w this)))
            (([], correctedRadius (membrane (cell w this))), w).

Definition getConnectedCell (this : CellId) (d : Vec) (w : World) : list CellId :=
  fst (fst (getConnectedCellAndMembraneDistance this d w)).

Definition getPreciseMembraneDistance (this : CellId) (d : Vec) (w : World) : float_t :=
  snd (fst (getConnectedCellAndMembraneDistance this d w)).

(** *** Volume, pressure and rest length *)

Definition getVolume (m : Membrane) : float_t :=
  (fl 4 / fl 3) * M_PI * radius m * radius m * radius m.

(** [getConnectionLength (l, adh)]. *)
Definition getConnectionLength (l adh : float_t) : float_t :=
  if adh >? Fin ADH_THRESHOLD
  then mix (Fin MAX_CELL_ADH_LENGTH * l) (Fin MIN_CELL_ADH_LENGTH * l) adh
  else l.

(** [computePressure]: the local [surface], then the assignment. *)
Definition surface (m : Membrane) : float_t := fl 4 * M_PI * radius m * radius m.

Definition computePressure (this : CellId) (w : World) : World :=
  let c := cell w this in
  on_cell this
    (set_membrane (set_pressure (roundN (totalForce c / surface (membrane c))))) w.

(** [compensateVolumeLoss]: the loop adds the cap of every connection to
    [volumeLoss]; the cached length is read without a refresh. *)
Definition volumeLoss_step (w : World) (this : CellId) (volumeLoss : float_t)
    (cc : ConnId) : float_t :=
  let con := conn w cc in
  let r := radius (membrane (cell w this)) in
  let other := if decide (this = node0 con) then node1 con else node0 con in
  let midpoint := getLength con * r / (r + radius (membrane (cell w other))) in
  let h := r - midpoint in
  volumeLoss
  + (M_PI * h / fl 6) * (fl 3 * (r * r - midpoint * midpoint) + h * h).

Definition compensateVolumeLoss (this : CellId) (w : World) : World :=
  let m := membrane (cell w this) in
  let targetVol := getVolume m in
  let volumeLoss := fold_left (volumeLoss_step w this) (cellConnections m) Float.zero in
  on_cell this
    (set_membrane
       (set_correctedRadius
          (roundN (cbrt ((targetVol + fl 1.3 * volumeLoss) / ((fl 4 / fl 3) * M_PI))))))
    w.

End SphereMembrane.

(** ** The connection manager

    [cellcellconnectionmanager.hpp] is absent.  The adjacency graph is held
    twice, as the flat container and as the per-cell neighbour set
    [connectedCells] (with the per-cell connection pointers
    [cellConnections]); creating or removing a connection updates both
    views. *)

Module CCCM.

(** Modelled from the spec: [CCCM::getConnection] dereferences an element of
    the container or of [cellConnections]. *)
Definition getConnection : World -> ConnId -> Connection := conn.

(** Modelled from the spec: [CCCM::areConnected] is the constant-time test
    on the neighbour set of [c0]. *)
Definition areConnected (w : World) (c0 c1 : CellId) : bool :=
  bool_decide (c1 ∈ connectedCells (cell w c0)).

(** Modelled from the spec: [CCCM::createConnection] allocates a connection
    object owned by the container and registers it in both endpoints. *)
Definition createConnection (c0 c1 : CellId) (con : Connection) (w : World) : World :=
  let cc := fresh (dom (connections w)) in
  let w := upd_connections (insert cc con) w in
  let w := on_cell c0 (set_membrane (set_cellConnections (fun l => l ++ [cc]))) w in
  let w := on_cell c1 (set_membrane (set_cellConnections (fun l => l ++ [cc]))) w in
  let w := on_cell c0 (set_connectedCells (fun s => {[c1]} ∪ s)) w in
  let w := on_cell c1 (set_connectedCells (fun s => {[c0]} ∪ s)) w in
  upd_container (fun l => l ++ [cc]) w.

(** Modelled from the spec: the erasure of a pointer from a vector. *)
Definition eraseFromVector (cc : ConnId) (l : list ConnId) : list ConnId :=
  filter (fun x => x ≠ cc) l.

(** Modelled from the spec: [CCCM::disconnect (container, c0, c1,
    connection)]; the connection leaves both endpoints and the container,
    which destroys it. *)
Definition disconnect (c0 c1 : CellId) (cc : ConnId) (w : World) : World :=
  let w := on_cell c0 (set_membrane (set_cellConnections (eraseFromVector cc))) w in
  let w := on_cell c1 (set_membrane (set_cellConnections (eraseFromVector cc))) w in
  let w := on_cell c0 (set_connectedCells (fun s => s ∖ {[c1]})) w in
  let w := on_cell c1 (set_connectedCells (fun s => s ∖ {[c0]})) w in
  let w := upd_container (eraseFromVector cc) w in
  upd_connections (delete cc) w.

Definition links (w : World) (c0 c1 : CellId) (cc : ConnId) : bool :=
  let con := conn w cc in
  bool_decide ((node0 con = c0 ∧ node1 con = c1) ∨ (node0 con = c1 ∧ node1 con = c0)).

(** Modelled from the spec: [CCCM::disconnect (container, c0, c1)]; the
    connection is looked up among those of [c0]. *)
Definition disconnect_cells (c0 c1 : CellId) (w : World) : World :=
  match List.find (links w c0 c1) (cellConnections (membrane (cell w c0))) with
  | Some cc => disconnect c0 c1 cc w
  | None => w
  end.

End CCCM.

Section Connections.

Context {T : Tools}.
Local Open Scope float_scope.

(** Modelled from the spec: [make_ordered_cell_pair] is absent; the two
    pointers are put in a fixed order, so that a pair and its mirror image
    are the same element of [newConnections]. *)
Definition make_ordered_cell_pair (a b : CellId) : CellId * CellId :=
  if (a <? b)%nat then (a, b) else (b, a).

(** The pairs [(l[j], l[k])] with [j < k], in the order of the two inner
    loops. *)
Fixpoint pairs (l : list CellId) : list (CellId * CellId) :=
  match l with
  | [] => []
  | a :: l' => map (pair a) l' ++ pairs l'
  end.

(** The quantities of the cheap test. *)
Definition pair_AB (w : World) (op : CellId * CellId) : Vec :=
  roundN_vec (V.sub (position (cell w op.1)) (position (cell w op.2))).

Definition sqDistance (w : World) (op : CellId * CellId) : float_t :=
  V.sqlength (pair_AB w op).

Definition sqMaxLength (w : World) (op : CellId * CellId) : float_t :=
  pow2 (correctedRadius (membrane (cell w op.1))
        + correctedRadius (membrane (cell w op.2))).

(** [dist] and [dir] of the precise test. *)
Definition pair_dist (w : World) (op : CellId * CellId) : float_t :=
  sqrt (sqDistance w op).

Definition pair_dir (w : World) (op : CellId * CellId) : Vec :=
  V.div (pair_AB w op) (pair_dist w op).

(** The body of the innermost loop of [checkForCellCellConnections] for
    the cells [batch[i][j]] and [batch[i][k]].  [newConnections] is the
    set of proposed pairs, kept in insertion order. *)
Definition checkPair (st : list (CellId * CellId) * World) (jk : CellId * CellId)
    : list (CellId * CellId) * World :=
  let '(newConnections, w) := st in
  let op := make_ordered_cell_pair jk.1 jk.2 in
  if sqDistance w op <=? sqMaxLength w op then
    if negb (CCCM.areConnected w op.1 op.2)
       && negb (bool_decide (op ∈ newConnections))
       && negb (bool_decide (op.1 = op.2))
    then
      let dist := pair_dist w op in
      let dir := pair_dir w op in
      let '(r0, w) := getConnectedCellAndMembraneDistance op.1 dir w in
      let '(r1, w) := getConnectedCellAndMembraneDistance op.2 (V.opp dir) w in
      if dist <? roundN (snd r0) + roundN (snd r1)
      then (newConnections ++ [op], w)
      else (newConnections, w)
    else (newConnections, w)
  else (newConnections, w).

Definition getMomentOfInertia (c : Cell) : float_t :=
  fl 4 * mass c * radius (membrane c) * radius (membrane c).

(** [getConnectionLength (c0, c1)]. *)
Definition getConnectionLength_cells (w : World) (c0 c1 : CellId) : float_t :=
  getConnectionLength
    (correctedRadius (membrane (cell w c0)) + correctedRadius (membrane (cell w c1)))
    (Float.min (getAdhesionWith c0 c1) (getAdhesionWith c1 c0)).

(** Modelled from the spec: the constructors [Spring (k, c, l)] and
    [Joint (k, c, maxTeta)] of [connection.h]; the cached geometry of a new
    spring is filled by the first refresh. *)
Definition Spring_new (k c l : float_t) : Spring := mkSpring k c l Float.zero V.zero.
Definition Joint_new (k c t : float_t) : Joint := mkJoint k c t Float.one.

Definition createConnection (c0 c1 : CellId) (w : World) : World :=
  let l := roundN (getConnectionLength_cells w c0 c1) in
  let membrane0 := membrane (cell w c0) in
  let membrane1 := membrane (cell w c1) in
  let vol0 := getVolume membrane0 in
  let vol1 := getVolume membrane1 in
  let volProportion := roundN (vol0 + vol1) in
  let k :=
    roundN ((stiffness membrane0 * vol0 + stiffness membrane1 * vol1) / volProportion) in
  let dr :=
    roundN ((dampRatio membrane0 * vol0 + dampRatio membrane1 * vol1) / volProportion) in
  let joints :=
    (Joint_new (angularStiffness membrane0)
               (dampingFromRatio dr (getMomentOfInertia (cell w c0) * fl 2)
                                 (angularStiffness membrane0))
               (maxTeta membrane0),
     Joint_new (angularStiffness membrane1)
               (dampingFromRatio dr (getMomentOfInertia (cell w c1) * fl 2)
                                 (angularStiffness membrane1))
               (maxTeta membrane1)) in
  CCCM.createConnection c0 c1
    (mkConnection c0 c1
       (Spring_new k
          (roundN (dampingFromRatio dr (mass (cell w c0) + mass (cell w c1)) k)) l)
       joints joints)
    w.

(** The first loop of both passes: every connection of the container is
    refreshed. *)
Definition refreshAll (w : World) : World := refreshes (container w) w.

(** [checkForCellCellConnections (cells, cellCellConnections, grid)].
    [grid w cells] is what [grid.getThreadSafeGrid ()] returns once the
    grid has been cleared and filled with [cells]. *)
Definition checkForCellCellConnections_scan
    (gridCells : list (list (list CellId))) (w : World)
    : list (CellId * CellId) * World :=
  fold_left
    (fun st batch =>
       fold_left (fun st batch_i => fold_left checkPair (pairs batch_i) st) batch st)
    gridCells ([], w).

Definition checkForCellCellConnections
    (cells : list CellId)
    (grid : World -> list CellId -> list (list (list CellId)))
    (w : World) : World :=
  let w := refreshAll w in
  let gridCells := grid w cells in
  let '(newConnections, w) := checkForCellCellConnections_scan gridCells w in
  fold_left (fun w nc => createConnection nc.1 nc.2 w) newConnections w.

End Connections.

Section Update.

Context {T : Tools}.
Local Open Scope float_scope.

(** Modelled from the spec: [isInVector] of [tools.h] is absent; it tests
    membership. *)
Definition isInVector (c : CellId) (v : list CellId) : bool := bool_decide (c ∈ v).

(** Modelled from the spec: [Connection::computeForces] is absent; the
    forces of the connection are computed and accumulated onto both
    endpoints. *)
Definition computeForces (dt : float_t) (cc : ConnId) (w : World) : World :=
  let con := conn w cc in
  let '((f0, t0), (f1, t1)) :=
    connectionForces dt con (cell w (node0 con)) (cell w (node1 con)) in
  on_cell (node1 con) (add_force f1 t1) (on_cell (node0 con) (add_force f0 t0) w).

(** The body of the second loop of [updateCellCellConnections].  The
    connection is a reference: each of its fields is read from the object
    as it is at that point. *)
Definition updateCellCellConnections_step (dt : float_t)
    (st : list (CellId * CellId * ConnId) * World) (cc : ConnId)
    : list (CellId * CellId * ConnId) * World :=
  let '(toErase, w) := st in
  let c0 := node0 (conn w cc) in
  let c1 := node1 (conn w cc) in
  let '(t0, w) :=
    getConnectedCellAndMembraneDistance c0 (roundN_vec (getDirection (conn w cc))) w in
  let '(t1, w) :=
    getConnectedCellAndMembraneDistance c1
      (roundN_vec (V.opp (getDirection (conn w cc)))) w in
  let v0 := fst t0 in
  let v1 := fst t1 in
  let c1ClosestToC0 := isInVector c1 v0 in
  let c0ClosestToC1 := isInVector c0 v1 in
  let cr0 := correctedRadius (membrane (cell w c0)) in
  let cr1 := correctedRadius (membrane (cell w c1)) in
  if (getLength (conn w cc) >? roundN (cr0 + cr1))
     || negb c0ClosestToC1 || negb c1ClosestToC0
  then (toErase ++ [(c0, c1, cc)], w)
  else
    let contactSurface :=
      roundN (M_PI * (pow2 (getLength (conn w cc))
                      + pow2 ((radius (membrane (cell w c0))
                               + radius (membrane (cell w c1))) / fl 2))) in
    let w := on_conn cc (set_joints contactSurface) w in
    let newl :=
      getConnectionLength (cr0 + cr1)
        ((getAdhesionWith c0 c1 + getAdhesionWith c1 c0) * fl 0.5) in
    let w := on_conn cc (set_sc (setRestLength (roundN newl))) w in
    (toErase, computeForces dt cc w).

(** The scan: refresh, then one step per connection of the container. *)
Definition updateCellCellConnections_scan (dt : float_t) (w : World)
    : list (CellId * CellId * ConnId) * World :=
  let w := refreshAll w in
  fold_left (updateCellCellConnections_step dt) (container w) ([], w).

Definition updateCellCellConnections (dt : float_t) (w : World) : World :=
  let '(toErase, w) := updateCellCellConnections_scan dt w in
  fold_left (fun w p => CCCM.disconnect p.1.1 p.1.2 p.2 w) toErase w.

(** [disconnectAndDeleteAllConnections (c0, con)]: the loop runs over a
    copy of the neighbour set. *)
Definition disconnectAndDeleteAllConnections (c0 : CellId) (w : World) : World :=
  let cop := elements (connectedCells (cell w c0)) in
  fold_left (fun w c1 => CCCM.disconnect_cells c0 c1 w) cop w.

End Update.

(** ** Collisions with static meshes *)

Section ModelCollisions.

Context {T : Tools}.
Local Open Scope float_scope.

(** Threshold (dot product) above which two model connections are merged. *)
Definition MIN_MODEL_CONNECTION_SIMILARITY : float_t := fl 0.8.

Definition getBoundingBoxRadius (c : Cell) : float_t := correctedRadius (membrane c).

Definition set_dirty (b : bool) (conn : CellModelConnection) : CellModelConnection :=
  mkCMC (cmc_id conn) (anchor conn) (bounce conn) b.

Definition addModelConnection (con : MConnId) (m : Membrane) : Membrane :=
  set_modelConnections (fun l => l ++ [con]) m.

Definition removeModelConnection (con : MConnId) (m : Membrane) : Membrane :=
  set_modelConnections (filter (fun x => x ≠ con)) m.

(** [vertices[faces[f].indices[i]]]. *)
Definition face_vertex (m : Model) (f : nat) (i : nat * nat * nat -> nat) : Vec :=
  nth (i (indices (nth f (faces m) (mkTriangle (0, 0, 0))%nat))) (vertices m) V.zero.

(** Case 2 of the sweep: [otherconn] is moved to the new projection and
    its anchor kept at cell height. *)
Definition updateOtherconn (c : Cell) (projec : Vec) (face : nat)
    (currentDirection : Vec) (otherconn : CellModelConnection) : CellModelConnection :=
  let b := bounce otherconn in
  let b := mkBounce (mkMCP (mcp_model (bounce_node0 b)) projec face)
                    (bounce_node1 b) (bounce_sc b) in
  let a := anchor otherconn in
  let a :=
    if spring_length (anchor_sc a) >? Float.zero then
      let anchorDirection := spring_direction (anchor_sc a) in
      let crossp := V.cross currentDirection (V.cross currentDirection anchorDirection) in
      if V.sqlength crossp >? radius (membrane c) * fl 0.02 then
        let crossp := normalized crossp in
        let projLength :=
          Float.min (V.dot (V.sub (scp_position (anchor_node0 a)) (position c)) crossp)
                    (radius (membrane c)) in
        mkAnchor (mkSCP (V.add (position c) (V.scale projLength crossp)))
                 (anchor_node1 a) (anchor_sc a) (tjEnabled a)
      else a
    else a in
  mkCMC (cmc_id otherconn) a b false.

(** The loop over the connections of one (mesh, cell) key: the first one
    whose previous direction is similar enough is updated, and the loop
    breaks.  [None] when no connection matches ([alreadyExist] stays
    false). *)
Fixpoint consolidate (c : Cell) (projec : Vec) (face : nat) (currentDirection : Vec)
    (conns : list CellModelConnection) : option (list CellModelConnection) :=
  match conns with
  | [] => None
  | otherconn :: rest =>
      let prevDirection :=
        normalized (V.sub (mcp_position (bounce_node0 (bounce otherconn)))
                          (prevposition c)) in
      if V.dot prevDirection currentDirection >? MIN_MODEL_CONNECTION_SIMILARITY
      then Some (updateOtherconn c projec face currentDirection otherconn :: rest)
      else cons otherconn <$> consolidate c projec face currentDirection rest
  end.

(** The identities of the connections the container owns. *)
Definition cmc_ids (cmcs : CellModelConnectionContainer) : gset MConnId :=
  map_fold
    (fun _ per_cell acc =>
       map_fold (fun _ conns acc => list_to_set (cmc_id <$> conns) ∪ acc) acc per_cell)
    ∅ cmcs.

(** Case 1 of the sweep: a new connection for cell [c] and the face [mf]. *)
Definition newModelConnection (w : World) (c : CellId) (mf : ModelId * nat)
    (projec : Vec) : CellModelConnection :=
  let cl := cell w c in
  let adh := getAdhesionWithModel c mf.1 in
  let l := mix (Fin MAX_CELL_ADH_LENGTH * correctedRadius (membrane cl))
               (Fin MIN_CELL_ADH_LENGTH * correctedRadius (membrane cl)) adh in
  mkCMC (fresh (cmc_ids (cellModelConnections w)))
    (mkAnchor (mkSCP (position cl)) c
       (Spring_new (fl 100) (dampingFromRatio (fl 0.9) (mass cl) (fl 100)) Float.zero)
       false)
    (mkBounce (mkMCP mf.1 projec mf.2) c
       (Spring_new (stiffness (membrane cl))
          (dampingFromRatio (dampRatio (membrane cl)) (mass cl)
                            (stiffness (membrane cl) * fl 1))
          l))
    false.

(** [cellModelConnections[m][c]], and its replacement. *)
Definition cmc_at (cmcs : CellModelConnectionContainer) (m : ModelId) (c : CellId)
    : list CellModelConnection :=
  default [] (default ∅ (cmcs !! m) !! c).

Definition cmc_put (m : ModelId) (c : CellId) (conns : list CellModelConnection)
    (cmcs : CellModelConnectionContainer) : CellModelConnectionContainer :=
  <[m := <[c := conns]> (default ∅ (cmcs !! m))]> cmcs.

(** The body of the loop over the candidate faces [mf] of cell [c]. *)
Definition checkFace (c : CellId) (w : World) (mf : ModelId * nat) : World :=
  let mdl : Model := models w !!! mf.1 in
  let p0 := face_vertex mdl mf.2 (fun i => i.1.1) in
  let p1 := face_vertex mdl mf.2 (fun i => i.1.2) in
  let p2 := face_vertex mdl mf.2 (fun i => i.2) in
  let cl := cell w c in
  let projec := projectionIntriangle p0 p1 p2 (position cl) in
  let currentDirection := V.sub projec.2 (position cl) in
  if projec.1 && (V.sqlength currentDirection <? pow2 (getBoundingBoxRadius cl)) then
    let currentDirection := normalized currentDirection in
    let cmcs := cellModelConnections w in
    let matched :=
      match cmcs !! mf.1 with
      | Some per_cell =>
          match per_cell !! c with
          | Some conns => consolidate cl projec.2 mf.2 currentDirection conns
          | None => None
          end
      | None => None
      end in
    match matched with
    | Some conns => upd_cellModelConnections (cmc_put mf.1 c conns) w
    | None =>
        let cmc := newModelConnection w c mf projec.2 in
        let w := on_cell c (set_membrane (addModelConnection (cmc_id cmc))) w in
        upd_cellModelConnections
          (fun cmcs => cmc_put mf.1 c (cmc_at cmcs mf.1 c ++ [cmc]) cmcs) w
    end
  else w.

(** The four phases of the sweep. *)
Definition markAllDirty (cmcs : CellModelConnectionContainer)
    : CellModelConnectionContainer :=
  (fun per_cell : gmap CellId (list CellModelConnection) =>
     (fun conns : list CellModelConnection => set_dirty true <$> conns) <$> per_cell)
  <$> cmcs.

Definition sweepCells (cells : list CellId)
    (modelGrid : Vec -> float_t -> list (ModelId * nat)) (w : World) : World :=
  fold_left
    (fun w c =>
       let toTest := modelGrid (position (cell w c)) (getBoundingBoxRadius (cell w c)) in
       fold_left (checkFace c) toTest w)
    cells w.

(** Clean up, dirty connections: each one leaves the membrane of its cell
    and the vector that owns it. *)
Definition forgetDirty (c : CellId) (conns : list CellModelConnection)
    (cs : gmap CellId Cell) : gmap CellId Cell :=
  fold_left
    (fun cs conn =>
       if dirty conn
       then update_cell c (set_membrane (removeModelConnection (cmc_id conn))) cs
       else cs)
    conns cs.

Definition removeDirty (w : World) : World :=
  let cmcs := cellModelConnections w in
  let cs :=
    map_fold (fun _ per_cell cs => map_fold forgetDirty cs per_cell) (cells w) cmcs in
  upd_cellModelConnections
    (fmap (M := gmap ModelId)
       (fmap (M := gmap CellId)
          (filter (fun conn : CellModelConnection => dirty conn = false))))
    (upd_cells (fun _ => cs) w).

(** Clean up, empty entries: a mesh entry that is empty is erased;
    otherwise its empty cell entries are erased and the iteration moves
    on to the next mesh. *)
Definition eraseEmpty (cmcs : CellModelConnectionContainer)
    : CellModelConnectionContainer :=
  omap (fun per_cell : gmap CellId (list CellModelConnection) =>
          if decide (per_cell = ∅) then None
          else Some (filter (fun kv => kv.2 ≠ []) per_cell))
       cmcs.

Definition checkForCellModelCollisions (cells : list CellId)
    (modelGrid : Vec -> float_t -> list (ModelId * nat)) (w : World) : World :=
  let w := upd_cellModelConnections markAllDirty w in
  let w := sweepCells cells modelGrid w in
  let w := removeDirty w in
  upd_cellModelConnections eraseEmpty w.

End ModelCollisions.

(** ** A concrete set of helpers

    The helpers below stand for the absent [tools.h], [connection.h] and
    [<cmath>] wherever a statement is evaluated on concrete cells. *)

Module Decimal.

Local Open Scope Z_scope.

(** [std::round] on a rational. *)
Definition round (q : Qc) : Z :=
  match (q ?= 0)%Qc with
  | Lt => - Qfloor (- q + (1 # 2))%Q
  | _ => Qfloor (q + (1 # 2))%Q
  end.

Definition precision : Z := 10 ^ 10.

(** Modelled from the spec: [roundN] rounds to a fixed decimal precision,
    here ten decimals. *)
Definition round10 (x : float_t) : float_t :=
  match x with
  | Fin q => Fin (Q2Qc (round (q * Q2Qc (precision # 1))%Qc # 1) / Q2Qc (precision # 1))%Qc
  | _ => x
  end.

Definition abs (x : float_t) : float_t :=
  match x with
  | Fin q => Fin (match (q ?= 0)%Qc with Lt => - q | _ => q end)%Qc
  | NInf => PInf
  | _ => x
  end.

(** Modelled from the spec: [fuzzyEqual] is equality up to a numeric
    tolerance, here an absolute tolerance of one millionth. *)
Definition fuzzyEqualAbs (a b : float_t) : bool :=
  Float.ltb (abs (Float.sub a b)) (fl 0.000001).

(** The largest [r] with [r ^ 3 <= n], bit by bit. *)
Fixpoint icbrt_bits (bits : nat) (n r : Z) : Z :=
  match bits with
  | O => r
  | S b =>
      let r' := r + 2 ^ Z.of_nat b in
      if r' ^ 3 <=? n then icbrt_bits b n r' else icbrt_bits b n r
  end.

Definition icbrt (n : Z) : Z := icbrt_bits (Z.to_nat (Z.log2 n / 3 + 1)) n 0.

Definition scale : Z := 10 ^ 20.

(** A root of a non-negative rational: exact when numerator and
    denominator are perfect powers, truncated otherwise. *)
Definition root (iroot : Z -> Z) (k : Z) (q : Q) : Q :=
  let n := Qnum q in
  let d := Z.pos (Qden q) in
  if (iroot n ^ k =? n) && (iroot d ^ k =? d)
  then Qmake (iroot n) (Z.to_pos (iroot d))
  else Qmake (iroot (Qfloor (q * (scale ^ k # 1))%Q)) (Z.to_pos scale).

(** [sqrt] and [cbrt] of [<cmath>], exact on rational squares and cubes
    and truncated to twenty decimals elsewhere. *)
Definition sqrtQ (x : float_t) : float_t :=
  match x with
  | Fin q =>
      match (q ?= 0)%Qc with
      | Lt => NaN
      | _ => Fin (Q2Qc (root Z.sqrt 2 q))
      end
  | PInf => PInf
  | _ => NaN
  end.

Definition cbrtQ (x : float_t) : float_t :=
  match x with
  | Fin q =>
      match (q ?= 0)%Qc with
      | Lt => Fin (- Q2Qc (root icbrt 3 (- q)%Q))%Qc
      | _ => Fin (Q2Qc (root icbrt 3 q))
      end
  | _ => x
  end.

(** Modelled from the spec: the length of a [Vec], its normalisation, and
    the length and direction a connection caches. *)
Definition length (v : Vec) : float_t := sqrtQ (V.sqlength v).

Definition normalizedOf (v : Vec) : Vec := V.div v (length v).

Definition lengthDirectionOf (p0 p1 : Vec) : float_t * Vec :=
  let d := V.sub p1 p0 in (length d, normalizedOf d).

(** Modelled from the spec: the damping of a spring of stiffness [k] under
    mass [m], for the damping ratio [r]. *)
Definition dampingOf (r m k : float_t) : float_t :=
  Float.mul (Float.mul r (fl 2)) (sqrtQ (Float.mul m k)).

(** Modelled from the spec: the force of a damped linear spring along the
    connection axis, at rest. *)
Definition springForces (dt : float_t) (con : Connection) (c0 c1 : Cell)
    : (Vec * Vec) * (Vec * Vec) :=
  let s := sc con in
  let f :=
    V.scale (Float.mul (spring_k s) (Float.sub (spring_length s) (spring_restLength s)))
            (spring_direction s) in
  ((f, V.zero), (V.opp f, V.zero)).

(** Modelled from the spec: a projection onto a triangle, here for a scene
    in which no face is ever hit. *)
Definition noProjection (p0 p1 p2 p : Vec) : bool * Vec := (false, p).

#[export] Instance tools : Tools := {|
  roundN := round10;
  fuzzyEqual := fuzzyEqualAbs;
  lengthDirection := lengthDirectionOf;
  sqrt := sqrtQ;
  cbrt := cbrtQ;
  normalized := normalizedOf;
  dampingFromRatio := dampingOf;
  connectionForces := springForces;
  projectionIntriangle := noProjection;
  getAdhesionWith := fun _ _ => Float.zero;
  getAdhesionWithModel := fun _ _ => Float.zero;
  ADH_THRESHOLD := Q2Qc 0.1;
  MAX_CELL_ADH_LENGTH := Q2Qc 0.8;
  MIN_CELL_ADH_LENGTH := Q2Qc 0.6
|}.

End Decimal.

(** ** Concrete cells *)

Module Scene.

(** A cell of radius [r] (corrected radius [cr]) at [(x, 0, 0)]. *)
Definition sphere (x r cr : float_t) (ccs : list ConnId) (nb : gset CellId) : Cell :=
  mkCell (mkVec x Float.zero Float.zero) (mkVec x Float.zero Float.zero)
         Float.one Float.zero V.zero V.zero nb
         (mkMembrane ccs [] r r cr Float.one Float.one Float.one Float.one
                     Float.zero true).

(** A connection between [c0] and [c1] whose cache holds [len] and the
    direction [(dx, 0, 0)]. *)
Definition beam (c0 c1 : CellId) (len dx : float_t) : Connection :=
  mkConnection c0 c1
    (mkSpring Float.one Float.one len len (mkVec dx Float.zero Float.zero))
    (default_joint, default_joint) (default_joint, default_joint).

Definition world (cs : list (CellId * Cell)) (cons : list (ConnId * Connection)) : World :=
  mkWorld (list_to_map cs) (list_to_map cons) (cons.*1) ∅ ∅.

(** Two unconnected cells of corrected radius 1 whose centres are [x]
    apart. *)
Definition two_cells (x : float_t) : World :=
  world [(0, sphere Float.zero Float.one Float.one [] ∅);
         (1, sphere x Float.one Float.one [] ∅)] [].

(** A single cell of radius [r] with no connection. *)
Definition lone_cell (r : float_t) : World :=
  world [(0, sphere Float.zero r r [] ∅)] [].

(** Two cells of radius 1 whose centres are [x] apart, linked by
    connection 0. *)
Definition linked_pair (x : float_t) : World :=
  world [(0, sphere Float.zero Float.one Float.one [0] {[1]});
         (1, sphere x Float.one Float.one [0] {[0]})]
        [(0, beam 0 1 x Float.one)].

(** A cell of radius 0 on which a total force [f] has accumulated. *)
Definition point_cell (f : float_t) : World :=
  world [(0, mkCell V.zero V.zero Float.one f V.zero V.zero ∅ default_membrane)] [].

(** Three cells on the x axis: A (cell 0) at 0 and B (cell 1) at 1.8, of
    radius 1, linked by connection 0; C (cell 2) of radius 0.2 at 1, linked
    to B by connection 1.  From A the nearest neighbour towards B is B; from
    B the nearest neighbour towards A is C. *)
Definition three_cells : World :=
  world [(0, sphere Float.zero Float.one Float.one [0] {[1]});
         (1, sphere (fl 1.8) Float.one Float.one [0; 1] {[0; 2]});
         (2, sphere Float.one (fl 0.2) (fl 0.2) [1] {[1]})]
        [(0, beam 0 1 (fl 1.8) Float.one);
         (1, beam 1 2 (fl 0.8) (fl (-1)))].

(** The connection [id] of cell [c] with face 0 of mesh [m]. *)
Definition contact (id : MConnId) (m : ModelId) (c : CellId) : CellModelConnection :=
  mkCMC id (mkAnchor (mkSCP V.zero) c default_spring false)
        (mkBounce (mkMCP m V.zero 0) c default_spring) false.

(** [linked_pair 1.5] with, in addition, cell 0 resting on mesh 5 through
    the model connection 7. *)
Definition resting_pair : World :=
  mkWorld
    (list_to_map
       [(0, mkCell V.zero V.zero Float.one Float.zero V.zero V.zero {[1]}
              (mkMembrane [0] [7] Float.one Float.one Float.one Float.one Float.one
                          Float.one Float.one Float.zero true));
        (1, sphere (fl 1.5) Float.one Float.one [0] {[0]})])
    {[0 := beam 0 1 (fl 1.5) Float.one]} [0] ∅
    {[5 := {[0 := [contact 7 5 0]]}]}.

(** A model grid with nothing near any cell. *)
Definition nothing_near : Vec -> float_t -> list (ModelId * nat) := fun _ _ => [].

(** The query direction along the x axis. *)
Definition along_x : Vec := mkVec Float.one Float.zero Float.zero.

(** One grid cell holding the given cells. *)
Definition one_batch (cs : list CellId) : World -> list CellId -> list (list (list CellId)) :=
  fun _ _ => [[cs]].

End Scene.

(** ** What the loops compute

    The terms in which the properties below are stated: the candidate a
    connection contributes to a query, the running closest set, the validity
    test of a connection and the graph invariant. *)

Section Views.

Context {T : Tools}.
Local Open Scope float_scope.

(** The neighbour across [cc] and its distance along [d], when the
    connection faces the query direction. *)
Definition facing (this : CellId) (d : Vec) (w : World) (cc : ConnId)
    : option (CellId * float_t) :=
  let w := refresh cc w in
  let con := conn w cc in
  let otherCell := if decide (this = node0 con) then node1 con else node0 con in
  let normal :=
    if decide (this = node0 con) then V.opp (getDirection con) else getDirection con in
  let dot := V.dot normal d in
  if dot <? Float.zero then
    let midpoint :=
      getLength con * radius (membrane (cell w this))
      / (radius (membrane (cell w this)) + radius (membrane (cell w otherCell))) in
    Some (otherCell, - midpoint / dot)
  else None.

Definition candidates (this : CellId) (d : Vec) (w : World) : list (CellId * float_t) :=
  omap (facing this d w) (cellConnections (membrane (cell w this))).

(** The update of [(closestCells, closestDist)] by one candidate. *)
Definition closer (acc : list CellId * float_t) (c : CellId * float_t)
    : list CellId * float_t :=
  if fuzzyEqual c.2 acc.2 then (acc.1 ++ [c.1], acc.2)
  else if c.2 <? acc.2 then ([c.1], c.2)
  else acc.

Definition closest (start : list CellId * float_t) (cands : list (CellId * float_t))
    : list CellId * float_t :=
  fold_left closer cands start.

(** A candidate is closest when no candidate is strictly nearer, two
    distances that are [fuzzyEqual] counting as a tie. *)
Definition is_closest (cands : list (CellId * float_t)) (c : CellId * float_t) : Prop :=
  ∀ c', c' ∈ cands → fuzzyEqual c'.2 c.2 = true ∨ (c'.2 <? c.2) = false.

(** The test of [updateCellCellConnections] on connection [cc]: too long,
    or one endpoint not among the nearest neighbours of the other. *)
Definition c1ClosestToC0 (w : World) (cc : ConnId) : bool :=
  let con := conn w cc in
  isInVector (node1 con) (getConnectedCell (node0 con) (roundN_vec (getDirection con)) w).

Definition c0ClosestToC1 (w : World) (cc : ConnId) : bool :=
  let con := conn w cc in
  isInVector (node0 con)
    (getConnectedCell (node1 con) (roundN_vec (V.opp (getDirection con))) w).

Definition tooLong (w : World) (cc : ConnId) : bool :=
  let con := conn w cc in
  getLength con
  >? roundN (correctedRadius (membrane (cell w (node0 con)))
             + correctedRadius (membrane (cell w (node1 con)))).

Definition invalid (w : World) (cc : ConnId) : bool :=
  tooLong w cc || negb (c0ClosestToC1 w cc) || negb (c1ClosestToC0 w cc).

(** The three tests of [checkForCellCellConnections] on the ordered pair
    [op], the set of proposed pairs being [nc]. *)
Definition cheapTest (w : World) (op : CellId * CellId) : bool :=
  sqDistance w op <=? sqMaxLength w op.

Definition admissible (w : World) (nc : list (CellId * CellId)) (op : CellId * CellId)
    : bool :=
  negb (CCCM.areConnected w op.1 op.2)
  && negb (bool_decide (op ∈ nc))
  && negb (bool_decide (op.1 = op.2)).

Definition preciseTest (w : World) (op : CellId * CellId) : bool :=
  pair_dist w op
  <? roundN (getPreciseMembraneDistance op.1 (pair_dir w op) w)
     + roundN (getPreciseMembraneDistance op.2 (V.opp (pair_dir w op)) w).

(** The proposed pairs after the cells [jk] have been looked at. *)
Definition propose (w : World) (nc : list (CellId * CellId)) (jk : CellId * CellId)
    : list (CellId * CellId) :=
  let op := make_ordered_cell_pair jk.1 jk.2 in
  if cheapTest w op && admissible w nc op && preciseTest w op then nc ++ [op] else nc.

(** What is known of every proposed pair. *)
Definition proposal_ok (w : World) (op : CellId * CellId) : Prop :=
  make_ordered_cell_pair op.1 op.2 = op
  ∧ op.1 ≠ op.2
  ∧ CCCM.areConnected w op.1 op.2 = false
  ∧ cheapTest w op = true
  ∧ preciseTest w op = true.

(** The pairs of cells the three nested loops go through, in order. *)
Definition pairs_of (gridCells : list (list (list CellId))) : list (CellId * CellId) :=
  concat (pairs <$> concat gridCells).

(** What the queries read of a cell, and of the world: positions, radii
    and the graph.  Forces, spring parameters and the cached geometry of the
    connections are not part of it. *)
Definition geometry (c : Cell)
    : Vec * float_t * float_t * list ConnId * gset CellId :=
  (position c, radius (membrane c), correctedRadius (membrane c),
   cellConnections (membrane c), connectedCells c).

Record same_geometry (w w' : World) : Prop := {
  sg_cells : ∀ c, geometry (cell w c) = geometry (cell w' c);
  sg_owned : dom (connections w) = dom (connections w');
  sg_node0 : ∀ cc, node0 (conn w cc) = node0 (conn w' cc);
  sg_node1 : ∀ cc, node1 (conn w cc) = node1 (conn w' cc);
  sg_container : container w = container w'
}.

(** The cached length and direction of the connections of the container
    are the same in both worlds. *)
Definition same_cache (w w' : World) : Prop :=
  ∀ cc, cc ∈ container w →
    getLength (conn w cc) = getLength (conn w' cc)
    ∧ getDirection (conn w cc) = getDirection (conn w' cc).

(** The cache of every connection of the container is up to date. *)
Definition settled (w : World) : Prop :=
  ∀ cc, cc ∈ container w →
    getLength (conn (refresh cc w) cc) = getLength (conn w cc)
    ∧ getDirection (conn (refresh cc w) cc) = getDirection (conn w cc).

(** The state in which the body of the second loop finds the world: the
    geometry and the cache the refresh of the first loop left. *)
Definition scanning (w1 w' : World) : Prop := same_geometry w1 w' ∧ same_cache w1 w'.

(** [a] does not exceed [b]. *)
Definition not_above (a b : float_t) : Prop := a = b ∨ (a <? b) = true.

(** The unordered pair of cells a connection links. *)
Definition endpoints (w : World) (cc : ConnId) : CellId * CellId :=
  make_ordered_cell_pair (node0 (conn w cc)) (node1 (conn w cc)).

(** The graph invariant: the container owns its connections, no
    connection links a cell to itself, no pair of cells is linked twice,
    and the neighbour sets and the connection pointers of the cells say
    exactly what the container says. *)
Record graph_invariant (w : World) : Prop := {
  gi_owned : ∀ cc, cc ∈ container w → is_Some (connections w !! cc);
  gi_irreflexive : ∀ cc, cc ∈ container w → node0 (conn w cc) ≠ node1 (conn w cc);
  gi_unique : NoDup (endpoints w <$> container w);
  gi_views : ∀ a b, b ∈ connectedCells (cell w a)
               ↔ a ≠ b ∧ make_ordered_cell_pair a b ∈ (endpoints w <$> container w);
  gi_pointers : ∀ a cc, cc ∈ cellConnections (membrane (cell w a))
                  ↔ cc ∈ container w ∧ (node0 (conn w cc) = a ∨ node1 (conn w cc) = a)
}.

End Views.

(** * Properties *)

(** ** Order on [float_t] *)

Section FloatOrder.

Local Open Scope float_scope.

Lemma ltb_fin (p q : Qc) : (Fin p <? Fin q) = true ↔ (p < q)%Qc.
Proof.
  unfold Float.ltb. rewrite Qclt_alt. destruct (p ?= q)%Qc; split; congruence.
Qed.

Lemma leb_fin (p q : Qc) : (Fin p <=? Fin q) = true ↔ (p <= q)%Qc.
Proof.
  unfold Float.leb. rewrite Qcle_alt. destruct (p ?= q)%Qc; split; congruence.
Qed.

Lemma ltb_trans (a b c : float_t) :
  (a <? b) = true → (b <? c) = true → (a <? c) = true.
Proof.
  destruct a as [p| | |], b as [q| | |], c as [r| | |]; try (simpl; congruence).
  rewrite !ltb_fin. apply Qclt_trans.
Qed.

Lemma ltb_irrefl (a : float_t) : (a <? a) = false.
Proof.
  destruct a as [p| | |]; try reflexivity.
  destruct (Fin p <? Fin p) eqn:E; [|reflexivity].
  apply ltb_fin in E. exfalso. apply (Qclt_not_le _ _ E), Qcle_refl.
Qed.

(** Strictly above means not below or equal. *)
Lemma ltb_not_leb (a b : float_t) : (a <? b) = true → (b <=? a) = false.
Proof.
  destruct a as [p| | |], b as [q| | |]; try (simpl; congruence).
  intros H. apply ltb_fin in H.
  destruct (Fin q <=? Fin p) eqn:E; [|reflexivity].
  apply leb_fin in E. exfalso. apply (Qclt_not_le _ _ H E).
Qed.

Lemma leb_refl (a : float_t) : Float.is_nan a = false → (a <=? a) = true.
Proof.
  destruct a as [p| | |]; try (simpl; congruence).
  intros _. apply leb_fin. apply Qcle_refl.
Qed.

Lemma not_above_spec (a b : float_t) : not_above a b → (b <? a) = false.
Proof.
  intros [->|H]; [apply ltb_irrefl|].
  destruct (b <? a) eqn:E; [|reflexivity].
  rewrite <- (ltb_irrefl a). symmetry. eapply ltb_trans; eassumption.
Qed.

Lemma div_fin (p q : Qc) : q ≠ 0%Qc → Fin p / Fin q = Fin (p / q)%Qc.
Proof.
  intros Hq. unfold Float.div.
  destruct (q ?= 0)%Qc eqn:E; try reflexivity.
  apply Qceq_alt in E. contradiction.
Qed.

Lemma div_zero (p : Qc) : Fin p / Float.zero = Float.signed_inf p true.
Proof. reflexivity. Qed.

End FloatOrder.

(** ** Rest length of a connection *)

Section RestLength.

Context {T : Tools}.
Local Open Scope float_scope.

Lemma mix_at_one (a b : Qc) : mix (Fin a) (Fin b) (fl 1) = Fin b.
Proof. unfold mix. simpl. f_equal. ring. Qed.

Lemma getConnectionLength_below (l adh : float_t) :
  (adh >? Fin ADH_THRESHOLD) = false → getConnectionLength l adh = l.
Proof. unfold getConnectionLength. now intros ->. Qed.

Lemma getConnectionLength_above (l adh : float_t) :
  (adh >? Fin ADH_THRESHOLD) = true →
  getConnectionLength l adh
  = mix (Fin MAX_CELL_ADH_LENGTH * l) (Fin MIN_CELL_ADH_LENGTH * l) adh.
Proof. unfold getConnectionLength. now intros ->. Qed.

(** C6.  [getConnectionLength (l, adh)] returns [l] unchanged whenever
    [adh] does not exceed [ADH_THRESHOLD], and the interpolation between
    the [MAX_CELL_ADH_LENGTH] and the [MIN_CELL_ADH_LENGTH] multiple of
    [l] otherwise.  So [getConnectionLength (2.0, 0)] is [2.0] for a
    threshold that is not negative, and [getConnectionLength (2.0, 1.0)] is
    [MIN_CELL_ADH_LENGTH * 2.0] for a threshold below 1. *)
Theorem getConnectionLength_policy :
  (∀ l adh, (adh >? Fin ADH_THRESHOLD) = false → getConnectionLength l adh = l)
  ∧ (∀ l adh, (adh >? Fin ADH_THRESHOLD) = true →
       getConnectionLength l adh
       = mix (Fin MAX_CELL_ADH_LENGTH * l) (Fin MIN_CELL_ADH_LENGTH * l) adh)
  ∧ ((0 <= ADH_THRESHOLD)%Qc → getConnectionLength (fl 2) (fl 0) = fl 2)
  ∧ ((ADH_THRESHOLD < 1)%Qc →
     getConnectionLength (fl 2) (fl 1) = Fin MIN_CELL_ADH_LENGTH * fl 2).
Proof.
  repeat split.
  - apply getConnectionLength_below.
  - apply getConnectionLength_above.
  - intros Hlo. apply getConnectionLength_below. unfold Float.gtb.
    destruct (Fin ADH_THRESHOLD <? fl 0) eqn:E; [|reflexivity].
    apply ltb_fin in E. exfalso. apply (Qclt_not_le _ _ E Hlo).
  - intros Hhi. rewrite getConnectionLength_above.
    + apply mix_at_one.
    + apply ltb_fin. exact Hhi.
Qed.

End RestLength.

(** The policy for a threshold of 0.1 and multiples 0.8 and 0.6: an
    adhesion of 0 leaves the length 2 as it is, an adhesion of 1 brings it
    to 1.2. *)
Lemma getConnectionLength_policy_witness :
  getConnectionLength (T := Decimal.tools) (fl 2) (fl 0) = fl 2
  ∧ getConnectionLength (T := Decimal.tools) (fl 2) (fl 0.05) = fl 2
  ∧ getConnectionLength (T := Decimal.tools) (fl 2) (fl 1) = Float.mul (fl 0.6) (fl 2)
  ∧ getConnectionLength (T := Decimal.tools) (fl 2) (fl 0.5)
    = mix (Float.mul (fl 0.8) (fl 2)) (Float.mul (fl 0.6) (fl 2)) (fl 0.5).
Proof.
  destruct (getConnectionLength_policy (T := Decimal.tools))
    as (Hbelow & Habove & Hzero & Hone).
  split; [|split; [|split]].
  - apply Hzero. vm_compute. discriminate.
  - apply Hbelow. vm_compute. reflexivity.
  - apply Hone. vm_compute. reflexivity.
  - apply Habove. vm_compute. reflexivity.
Defined.

(** ** Reading and writing the store *)

Section Store.

Lemma cell_on_cell (c c' : CellId) (f : Cell → Cell) (w : World) :
  cell (on_cell c f w) c' = if decide (c = c') then f (cell w c) else cell w c'.
Proof. unfold cell, on_cell, update_cell. simpl. apply lookup_total_insert. Qed.

Lemma cell_on_cell_eq (c : CellId) (f : Cell → Cell) (w : World) :
  cell (on_cell c f w) c = f (cell w c).
Proof. rewrite cell_on_cell. now destruct (decide (c = c)). Qed.

Lemma cell_on_conn (cc : ConnId) (f : Connection → Connection) (w : World) (c : CellId) :
  cell (on_conn cc f w) c = cell w c.
Proof. reflexivity. Qed.

Lemma conn_on_cell (c : CellId) (f : Cell → Cell) (w : World) (cc : ConnId) :
  conn (on_cell c f w) cc = conn w cc.
Proof. reflexivity. Qed.

Lemma lookup_on_conn (cc cc' : ConnId) (f : Connection → Connection) (w : World) :
  connections (on_conn cc f w) !! cc'
  = if decide (cc = cc') then f <$> connections w !! cc else connections w !! cc'.
Proof. unfold on_conn. simpl. apply lookup_alter. Qed.

Lemma conn_on_conn_ne (cc cc' : ConnId) (f : Connection → Connection) (w : World) :
  cc ≠ cc' → conn (on_conn cc f w) cc' = conn w cc'.
Proof. intros H. unfold conn, on_conn. simpl. now apply lookup_total_alter_ne. Qed.

(** A write through a dangling pointer changes nothing; through a live
    one it changes the object. *)
Lemma conn_on_conn_eq (cc : ConnId) (f : Connection → Connection) (w : World) :
  conn (on_conn cc f w) cc
  = match connections w !! cc with Some con => f con | None => conn w cc end.
Proof.
  unfold conn, on_conn. simpl. rewrite !lookup_total_alt, lookup_alter_eq.
  now destruct (connections w !! cc).
Qed.

End Store.

(** ** Volume compensation *)

Section Volume.

Context {T : Tools}.
Local Open Scope float_scope.

(** The volume of the unit ball, a non-zero constant. *)
Lemma unit_volume : ∃ k : Qc, k ≠ 0%Qc ∧ (fl 4 / fl 3) * M_PI = Fin k.
Proof.
  eexists. split; [|vm_compute; reflexivity].
  intros E. apply (f_equal this) in E. discriminate E.
Qed.

Lemma isolated_cube (k r : Qc) :
  k ≠ 0%Qc →
  (Fin k * Fin r * Fin r * Fin r + fl 1.3 * Float.zero) / Fin k = Fin (r * r * r)%Qc.
Proof.
  intros Hk.
  change (Fin k * Fin r * Fin r * Fin r + fl 1.3 * Float.zero)
    with (Fin (k * r * r * r + Q2Qc 1.3 * 0)%Qc).
  rewrite div_fin by assumption. f_equal. now field.
Qed.


End Volume.



(** ** The geometry the queries depend on *)

Section Geometry.

Context {T : Tools}.
Local Open Scope float_scope.

Lemma same_geometry_refl (w : World) : same_geometry w w.
Proof. now split. Qed.

Lemma same_geometry_sym (w w' : World) : same_geometry w w' → same_geometry w' w.
Proof. intros []. now split. Qed.

Lemma same_geometry_trans (w1 w2 w3 : World) :
  same_geometry w1 w2 → same_geometry w2 w3 → same_geometry w1 w3.
Proof.
  intros [] []. split; intros; etransitivity; eauto.
Qed.

Lemma conn_lookup (w : World) (cc : ConnId) (con : Connection) :
  connections w !! cc = Some con → conn w cc = con.
Proof. intros H. unfold conn. now rewrite lookup_total_alt, H. Qed.

(** Writing fields of a connection other than its endpoints, or fields of a
    cell other than its geometry, leaves the geometry as it is. *)
Lemma same_geometry_on_conn (w : World) (cc : ConnId) (f : Connection → Connection) :
  (∀ con, node0 (f con) = node0 con ∧ node1 (f con) = node1 con) →
  same_geometry w (on_conn cc f w).
Proof.
  intros Hf. split; try reflexivity.
  - unfold on_conn. simpl. now rewrite dom_alter_L.
  - intros cc'. destruct (decide (cc = cc')) as [<-|Hne].
    + rewrite conn_on_conn_eq. destruct (connections w !! cc) eqn:E; [|reflexivity].
      rewrite (conn_lookup _ _ _ E). symmetry. apply Hf.
    + now rewrite conn_on_conn_ne.
  - intros cc'. destruct (decide (cc = cc')) as [<-|Hne].
    + rewrite conn_on_conn_eq. destruct (connections w !! cc) eqn:E; [|reflexivity].
      rewrite (conn_lookup _ _ _ E). symmetry. apply Hf.
    + now rewrite conn_on_conn_ne.
Qed.

Lemma same_geometry_on_cell (w : World) (c : CellId) (f : Cell → Cell) :
  (∀ x, geometry (f x) = geometry x) → same_geometry w (on_cell c f w).
Proof.
  intros Hf. split; try reflexivity.
  intros c'. rewrite cell_on_cell. destruct (decide (c = c')) as [<-|]; [|reflexivity].
  symmetry. apply Hf.
Qed.

Lemma same_geometry_refresh (w : World) (cc : ConnId) : same_geometry w (refresh cc w).
Proof. apply same_geometry_on_conn. now intros con. Qed.

Lemma same_geometry_refreshes (ccs : list ConnId) (w : World) :
  same_geometry w (refreshes ccs w).
Proof.
  revert w. induction ccs as [|cc ccs IH]; intros w; [apply same_geometry_refl|].
  eapply same_geometry_trans; [apply (same_geometry_refresh w cc)|apply IH].
Qed.

Lemma same_geometry_position (w w' : World) (c : CellId) :
  same_geometry w w' → position (cell w c) = position (cell w' c).
Proof. intros H. pose proof (sg_cells _ _ H c) as E. unfold geometry in E. congruence. Qed.

Lemma same_geometry_radius (w w' : World) (c : CellId) :
  same_geometry w w' → radius (membrane (cell w c)) = radius (membrane (cell w' c)).
Proof. intros H. pose proof (sg_cells _ _ H c) as E. unfold geometry in E. congruence. Qed.

Lemma same_geometry_correctedRadius (w w' : World) (c : CellId) :
  same_geometry w w' →
  correctedRadius (membrane (cell w c)) = correctedRadius (membrane (cell w' c)).
Proof. intros H. pose proof (sg_cells _ _ H c) as E. unfold geometry in E. congruence. Qed.

Lemma same_geometry_cellConnections (w w' : World) (c : CellId) :
  same_geometry w w' →
  cellConnections (membrane (cell w c)) = cellConnections (membrane (cell w' c)).
Proof. intros H. pose proof (sg_cells _ _ H c) as E. unfold geometry in E. congruence. Qed.

Lemma same_geometry_connectedCells (w w' : World) (c : CellId) :
  same_geometry w w' → connectedCells (cell w c) = connectedCells (cell w' c).
Proof. intros H. pose proof (sg_cells _ _ H c) as E. unfold geometry in E. congruence. Qed.

(** What a refresh leaves in the connection: its endpoints, and the length
    and direction computed from their positions. *)
Lemma refreshed_conn (w : World) (cc : ConnId) :
  conn (refresh cc w) cc
  = match connections w !! cc with
    | Some con => updateLengthDirection w con
    | None => conn w cc
    end.
Proof. apply conn_on_conn_eq. Qed.

Lemma refreshed_same (w w' : World) (cc : ConnId) :
  same_geometry w w' →
  node0 (conn (refresh cc w) cc) = node0 (conn (refresh cc w') cc)
  ∧ node1 (conn (refresh cc w) cc) = node1 (conn (refresh cc w') cc)
  ∧ getLength (conn (refresh cc w) cc) = getLength (conn (refresh cc w') cc)
  ∧ getDirection (conn (refresh cc w) cc) = getDirection (conn (refresh cc w') cc).
Proof.
  intros H. rewrite !refreshed_conn.
  pose proof (sg_node0 _ _ H cc) as H0. pose proof (sg_node1 _ _ H cc) as H1.
  assert (Hdom : is_Some (connections w !! cc) ↔ is_Some (connections w' !! cc)).
  { rewrite <- !elem_of_dom. now rewrite (sg_owned _ _ H). }
  destruct (connections w !! cc) as [con|] eqn:E, (connections w' !! cc) as [con'|] eqn:E'.
  - rewrite (conn_lookup _ _ _ E) in H0, H1. rewrite (conn_lookup _ _ _ E') in H0, H1.
    unfold updateLengthDirection, getLength, getDirection. simpl.
    rewrite H0, H1, !(same_geometry_position w w' _ H). auto.
  - destruct Hdom as [Hdom _]. destruct Hdom as [? Hx]; [eauto|discriminate Hx].
  - destruct Hdom as [_ Hdom]. destruct Hdom as [? Hx]; [eauto|discriminate Hx].
  - unfold conn. rewrite !lookup_total_alt, E, E'. auto.
Qed.

Lemma cell_refresh (cc : ConnId) (w : World) (c : CellId) :
  cell (refresh cc w) c = cell w c.
Proof. reflexivity. Qed.

Lemma facing_same_geometry (this : CellId) (d : Vec) (w w' : World) (cc : ConnId) :
  same_geometry w w' → facing this d w cc = facing this d w' cc.
Proof.
  intros H. unfold facing.
  destruct (refreshed_same w w' cc H) as (-> & -> & -> & ->).
  rewrite !cell_refresh.
  now rewrite !(same_geometry_radius w w' _ H).
Qed.

Lemma candidates_same_geometry (this : CellId) (d : Vec) (w w' : World) :
  same_geometry w w' → candidates this d w = candidates this d w'.
Proof.
  intros H. unfold candidates. rewrite (same_geometry_cellConnections w w' _ H).
  induction (cellConnections (membrane (cell w' this))) as [|cc l IH]; [reflexivity|].
  csimpl. now rewrite IH, (facing_same_geometry this d w w' cc H).
Qed.

(** One iteration of the query loop refreshes the connection and feeds its
    candidate, if it faces the query direction, to [closer]. *)
Lemma getConnectedCellAndMembraneDistance_step_spec
    (this : CellId) (d : Vec) (acc : list CellId * float_t) (w : World) (cc : ConnId) :
  getConnectedCellAndMembraneDistance_step this d (acc, w) cc
  = (match facing this d w cc with Some c => closer acc c | None => acc end,
     refresh cc w).
Proof.
  unfold getConnectedCellAndMembraneDistance_step, facing, closer.
  destruct acc as [closestCells closestDist]. cbn zeta.
  destruct (decide (this = node0 (conn (refresh cc w) cc)));
    (destruct (_ <? Float.zero); [|reflexivity]); cbn [fst snd];
    (destruct (fuzzyEqual _ closestDist); [reflexivity|]);
    now destruct (_ <? closestDist).
Qed.

Lemma getConnectedCellAndMembraneDistance_loop
    (this : CellId) (d : Vec) (w : World) (ccs : list ConnId) :
  ∀ acc w1, same_geometry w w1 →
    fold_left (getConnectedCellAndMembraneDistance_step this d) ccs (acc, w1)
    = (closest acc (omap (facing this d w) ccs), refreshes ccs w1).
Proof.
  induction ccs as [|cc ccs IH]; intros acc w1 H; [reflexivity|].
  cbn [fold_left]. rewrite getConnectedCellAndMembraneDistance_step_spec.
  rewrite IH by (eapply same_geometry_trans; [exact H|apply same_geometry_refresh]).
  csimpl. rewrite (facing_same_geometry this d w w1 cc H).
  unfold closest. now destruct (facing this d w1 cc).
Qed.

(** The query returns the running closest set over the candidates, started
    at the corrected radius with no cell; its only effect on the world is
    the refresh of the connections it went through. *)
Lemma getConnectedCellAndMembraneDistance_spec (this : CellId) (d : Vec) (w : World) :
  getConnectedCellAndMembraneDistance this d w
  = (closest ([], correctedRadius (membrane (cell w this))) (candidates this d w),
     refreshes (cellConnections (membrane (cell w this))) w).
Proof.
  unfold getConnectedCellAndMembraneDistance, candidates.
  apply getConnectedCellAndMembraneDistance_loop, same_geometry_refl.
Qed.

Lemma getConnectedCellAndMembraneDistance_same_geometry
    (this : CellId) (d : Vec) (w w' : World) :
  same_geometry w w' →
  fst (getConnectedCellAndMembraneDistance this d w)
  = fst (getConnectedCellAndMembraneDistance this d w').
Proof.
  intros H. rewrite !getConnectedCellAndMembraneDistance_spec. simpl.
  now rewrite (candidates_same_geometry this d w w' H),
              (same_geometry_correctedRadius w w' _ H).
Qed.

End Geometry.

(** ** The nearest connected neighbours *)

Section Closest.

Context {T : Tools}.
Local Open Scope float_scope.

Lemma closest_cons (acc : list CellId * float_t) (c : CellId * float_t)
    (cands : list (CellId * float_t)) :
  closest acc (c :: cands) = closest (closer acc c) cands.
Proof. reflexivity. Qed.

Lemma closest_app (acc : list CellId * float_t) (l1 l2 : list (CellId * float_t)) :
  closest acc (l1 ++ l2) = closest (closest acc l1) l2.
Proof. apply fold_left_app. Qed.

Lemma closer_tie (acc : list CellId * float_t) (c : CellId * float_t) :
  fuzzyEqual c.2 acc.2 = true → closer acc c = (acc.1 ++ [c.1], acc.2).
Proof. unfold closer. now intros ->. Qed.

Lemma closer_lower (acc : list CellId * float_t) (c : CellId * float_t) :
  fuzzyEqual c.2 acc.2 = false → (c.2 <? acc.2) = true → closer acc c = ([c.1], c.2).
Proof. unfold closer. now intros -> ->. Qed.

Lemma closer_skip (acc : list CellId * float_t) (c : CellId * float_t) :
  fuzzyEqual c.2 acc.2 = false → (c.2 <? acc.2) = false → closer acc c = acc.
Proof. unfold closer. now intros -> ->. Qed.

(** The shape of the result.  Either no candidate lowered the running
    distance, and the set collects the candidates that are [fuzzyEqual] to
    the starting distance; or the last candidate to lower it opens the set,
    followed by the later candidates [fuzzyEqual] to its distance. *)
Lemma closest_shape (cands : list (CellId * float_t)) :
  ∀ acc : list CellId * float_t,
    ((closest acc cands).2 = acc.2
     ∧ (closest acc cands).1
       = acc.1 ++ (filter (λ c, fuzzyEqual c.2 acc.2 = true) cands).*1
     ∧ ∀ c, c ∈ cands → fuzzyEqual c.2 acc.2 = true ∨ (c.2 <? acc.2) = false)
    ∨ (∃ pre c post,
         cands = pre ++ c :: post
         ∧ fuzzyEqual c.2 (closest acc pre).2 = false
         ∧ (c.2 <? (closest acc pre).2) = true
         ∧ (closest acc cands).2 = c.2
         ∧ (closest acc cands).1
           = c.1 :: (filter (λ c', fuzzyEqual c'.2 c.2 = true) post).*1
         ∧ ∀ c', c' ∈ post → fuzzyEqual c'.2 c.2 = true ∨ (c'.2 <? c.2) = false).
Proof.
  induction cands as [|c cands IH]; intros acc.
  - left. simpl. rewrite app_nil_r. repeat split. intros c Hc. inversion Hc.
  - rewrite closest_cons.
    destruct (fuzzyEqual c.2 acc.2) eqn:Efz; [|destruct (c.2 <? acc.2) eqn:Elt].
    1: rewrite (closer_tie _ _ Efz).
    2: rewrite (closer_lower _ _ Efz Elt).
    3: rewrite (closer_skip _ _ Efz Elt).
    + destruct (IH (acc.1 ++ [c.1], acc.2)) as [(Hd & Hc & Hall)|(pre & c0 & post & -> & H)].
      * left. simpl in Hd, Hc, Hall. rewrite Hd, Hc. repeat split.
        -- rewrite filter_cons_True by exact Efz. simpl. now rewrite <- app_assoc.
        -- intros c' [->|Hin]%elem_of_cons; auto.
      * right. exists (c :: pre), c0, post. split; [reflexivity|].
        rewrite closest_cons, (closer_tie _ _ Efz). exact H.
    + destruct (IH ([c.1], c.2)) as [(Hd & Hc & Hall)|(pre & c0 & post & -> & H)].
      * right. exists [], c, cands. simpl in Hd, Hc, Hall. simpl. auto 10.
      * right. exists (c :: pre), c0, post. split; [reflexivity|].
        rewrite closest_cons, (closer_lower _ _ Efz Elt). exact H.
    + destruct (IH acc) as [(Hd & Hc & Hall)|(pre & c0 & post & -> & H)].
      * left. rewrite Hd, Hc. repeat split.
        -- rewrite filter_cons_False; [reflexivity|]. now rewrite Efz.
        -- intros c' [->|Hin]%elem_of_cons; auto.
      * right. exists (c :: pre), c0, post. split; [reflexivity|].
        rewrite closest_cons, (closer_skip _ _ Efz Elt). exact H.
Qed.

(** The running distance never goes up. *)
Lemma closest_not_above (cands : list (CellId * float_t)) :
  ∀ acc : list CellId * float_t, not_above (closest acc cands).2 acc.2.
Proof.
  induction cands as [|c cands IH]; intros acc; [now left|].
  rewrite closest_cons. unfold closer.
  destruct (fuzzyEqual c.2 acc.2); [apply (IH (_, _))|].
  destruct (c.2 <? acc.2) eqn:Elt; [|apply IH].
  destruct (IH ([c.1], c.2)) as [H|H]; simpl in H.
  - right. now rewrite H.
  - right. eapply ltb_trans; eassumption.
Qed.


End Closest.

(** ** The query never reaches beyond the corrected radius *)

Section WithinRadius.

Context {T : Tools}.
Local Open Scope float_scope.

(** A cell is returned only on account of a candidate that is not beyond
    [cr], once [fuzzyEqual] is a tolerance: what is within tolerance of a
    distance is within tolerance of any distance in between. *)
Lemma closest_within (cr : float_t) (cands : list (CellId * float_t)) :
  (∀ a b c, fuzzyEqual a b = true → (b <? c) = true → (c <? a) = true →
            fuzzyEqual a c = true) →
  ∀ acc : list CellId * float_t,
    not_above acc.2 cr →
    ∀ x, x ∈ (closest acc cands).1 →
      x ∈ acc.1
      ∨ ∃ c, c ∈ cands ∧ c.1 = x ∧ (fuzzyEqual c.2 cr = true ∨ (cr <? c.2) = false).
Proof.
  intros Hconv. induction cands as [|c cands IH]; intros acc Hacc x Hx; [now left|].
  rewrite closest_cons in Hx.
  destruct (fuzzyEqual c.2 acc.2) eqn:Efz; [|destruct (c.2 <? acc.2) eqn:Elt].
  - rewrite (closer_tie _ _ Efz) in Hx.
    destruct (IH (acc.1 ++ [c.1], acc.2) Hacc x Hx) as [Hin|(c0 & Hin & H)].
    + simpl in Hin. apply elem_of_app in Hin as [Hin|Hin]; [now left|].
      apply list_elem_of_singleton in Hin. subst x. right. exists c.
      split; [apply elem_of_cons; now left|]. split; [reflexivity|].
      destruct (cr <? c.2) eqn:E; [left|now right].
      destruct Hacc as [<-|Hlt]; [exact Efz|].
      exact (Hconv _ _ _ Efz Hlt E).
    + right. exists c0. rewrite elem_of_cons. auto.
  - rewrite (closer_lower _ _ Efz Elt) in Hx.
    assert (Hc : not_above c.2 cr).
    { right. destruct Hacc as [<-|Hlt]; [exact Elt|]. eapply ltb_trans; eassumption. }
    destruct (IH ([c.1], c.2) Hc x Hx) as [Hin|(c0 & Hin & H)].
    + simpl in Hin. apply list_elem_of_singleton in Hin. subst x. right. exists c.
      split; [apply elem_of_cons; now left|]. split; [reflexivity|].
      right. now apply not_above_spec.
    + right. exists c0. rewrite elem_of_cons. auto.
  - rewrite (closer_skip _ _ Efz Elt) in Hx.
    destruct (IH acc Hacc x Hx) as [Hin|(c0 & Hin & H)]; [now left|].
    right. exists c0. rewrite elem_of_cons. auto.
Qed.

(** C10.  The distance returned by [getConnectedCellAndMembraneDistance]
    never exceeds [correctedRadius].  And, [fuzzyEqual] being a tolerance
    (what is within tolerance of a distance is within tolerance of any
    distance in between), a neighbour whose candidate distance is strictly
    greater than [correctedRadius] and not [fuzzyEqual] to it is never in
    the returned set, whatever the other candidates are. *)
Theorem getConnectedCellAndMembraneDistance_within_radius
    (this : CellId) (d : Vec) (w : World) :
  let cr := correctedRadius (membrane (cell w this)) in
  (cr <? getPreciseMembraneDistance this d w) = false
  ∧ ((∀ a b c, fuzzyEqual a b = true → (b <? c) = true → (c <? a) = true →
               fuzzyEqual a c = true) →
     ∀ x, (∀ c, c ∈ candidates this d w → c.1 = x →
               (cr <? c.2) = true ∧ fuzzyEqual c.2 cr = false) →
          x ∉ getConnectedCell this d w).
Proof.
  intros cr. unfold getPreciseMembraneDistance, getConnectedCell.
  rewrite getConnectedCellAndMembraneDistance_spec. cbn [fst]. split.
  - apply not_above_spec. apply (closest_not_above _ ([], cr)).
  - intros Hconv x Hfar Hx.
    destruct (closest_within cr _ Hconv ([], cr) (or_introl eq_refl) x Hx)
      as [Hin|(c & Hin & Hc & Hnear)].
    + inversion Hin.
    + destruct (Hfar c Hin Hc) as [Hgt Hfz]. destruct Hnear; congruence.
Qed.

End WithinRadius.

(** The absolute tolerance is a tolerance. *)
Lemma fuzzyEqualAbs_between (a b c : float_t) :
  Decimal.fuzzyEqualAbs a b = true → Float.ltb b c = true → Float.ltb c a = true →
  Decimal.fuzzyEqualAbs a c = true.
Proof.
  destruct a as [p| | |], b as [q| | |], c as [r| | |]; try (simpl; congruence);
    try (vm_compute; congruence).
  unfold Decimal.fuzzyEqualAbs. intros H Hqr Hrp.
  apply ltb_fin in Hqr, Hrp.
  assert (Hpos : ∀ x y : Qc, (y < x)%Qc →
            Decimal.abs (Float.sub (Fin x) (Fin y)) = Fin (x - y)%Qc).
  { intros x y Hxy. simpl. f_equal.
    assert (E : (x + - y ?= 0)%Qc = Gt).
    { apply Qcgt_alt. unfold Qclt in *. unfold Qcplus, Qcopp. simpl.
      rewrite !Qred_correct. apply Qlt_minus_iff in Hxy. exact Hxy. }
    now rewrite E. }
  rewrite Hpos in H by (eapply Qclt_trans; eassumption).
  rewrite Hpos by assumption.
  apply ltb_fin in H. apply ltb_fin. eapply Qcle_lt_trans; [|exact H].
  unfold Qcle, Qclt, Qcminus, Qcplus, Qcopp in *. simpl. rewrite !Qred_correct.
  apply Qplus_le_r. apply Qopp_le_compat. now apply Qlt_le_weak.
Qed.

(** Cell 0 of corrected radius 1 is linked to cell 1, ten units away along
    the x axis: the contact midpoint is at 5. *)
Lemma far_candidate :
  candidates (T := Decimal.tools) 0 Scene.along_x (Scene.linked_pair (fl 10))
  = [(1, fl 5)].
Proof. vm_compute. reflexivity. Qed.



(** The neighbour at distance 5 of a cell of corrected radius 1 is not
    returned, and the distance returned is not above 1. *)
Lemma getConnectedCellAndMembraneDistance_within_radius_witness :
  let w := Scene.linked_pair (fl 10) in
  Float.ltb (correctedRadius (membrane (cell w 0)))
            (getPreciseMembraneDistance (T := Decimal.tools) 0 Scene.along_x w) = false
  ∧ 1 ∉ getConnectedCell (T := Decimal.tools) 0 Scene.along_x w.
Proof.
  destruct (getConnectedCellAndMembraneDistance_within_radius (T := Decimal.tools)
              0 Scene.along_x (Scene.linked_pair (fl 10)))
    as [Hdist Hset].
  split; [exact Hdist|].
  apply (Hset fuzzyEqualAbs_between). intros c Hc _. rewrite far_candidate in Hc.
  apply list_elem_of_singleton in Hc. subst c. split; vm_compute; reflexivity.
Defined.

(** ** The proximity scan *)

Section Scan.

Context {T : Tools}.
Local Open Scope float_scope.

Lemma sqDistance_same_geometry (w w' : World) (op : CellId * CellId) :
  same_geometry w w' → sqDistance w op = sqDistance w' op.
Proof.
  intros H. unfold sqDistance, pair_AB.
  now rewrite !(same_geometry_position w w' _ H).
Qed.

Lemma sqMaxLength_same_geometry (w w' : World) (op : CellId * CellId) :
  same_geometry w w' → sqMaxLength w op = sqMaxLength w' op.
Proof.
  intros H. unfold sqMaxLength.
  now rewrite !(same_geometry_correctedRadius w w' _ H).
Qed.

Lemma pair_dir_same_geometry (w w' : World) (op : CellId * CellId) :
  same_geometry w w' → pair_dir w op = pair_dir w' op.
Proof.
  intros H. unfold pair_dir, pair_dist, pair_AB.
  now rewrite (sqDistance_same_geometry w w' op H), !(same_geometry_position w w' _ H).
Qed.

Lemma areConnected_same_geometry (w w' : World) (a b : CellId) :
  same_geometry w w' → CCCM.areConnected w a b = CCCM.areConnected w' a b.
Proof.
  intros H. unfold CCCM.areConnected.
  now rewrite (same_geometry_connectedCells w w' _ H).
Qed.

(** The body of the innermost loop decides by the three tests, all read
    off the geometry; its only effect on the world is to refresh
    connections. *)
Lemma checkPair_spec (w w1 : World) (nc : list (CellId * CellId)) (jk : CellId * CellId) :
  same_geometry w w1 →
  ∃ w2, checkPair (nc, w1) jk = (propose w nc jk, w2) ∧ same_geometry w w2.
Proof.
  intros H. unfold checkPair, propose, cheapTest, admissible, preciseTest.
  set (op := make_ordered_cell_pair jk.1 jk.2).
  rewrite <- (sqDistance_same_geometry w w1 op H), <- (sqMaxLength_same_geometry w w1 op H).
  rewrite <- (areConnected_same_geometry w w1 _ _ H).
  destruct (sqDistance w op <=? sqMaxLength w op); [|now exists w1].
  destruct (negb (CCCM.areConnected w op.1 op.2) && negb (bool_decide (op ∈ nc))
            && negb (bool_decide (op.1 = op.2))); [|now exists w1].
  cbn [andb].
  unfold pair_dist. rewrite <- (pair_dir_same_geometry w w1 op H),
    <- (sqDistance_same_geometry w w1 op H).
  rewrite (getConnectedCellAndMembraneDistance_spec op.1 (pair_dir w op) w1).
  set (w1' := refreshes _ w1).
  assert (H' : same_geometry w w1').
  { eapply same_geometry_trans; [exact H|apply same_geometry_refreshes]. }
  rewrite (getConnectedCellAndMembraneDistance_spec op.2 (V.opp (pair_dir w op)) w1').
  set (w2 := refreshes _ w1').
  assert (H2 : same_geometry w w2).
  { eapply same_geometry_trans; [exact H'|apply same_geometry_refreshes]. }
  unfold getPreciseMembraneDistance.
  rewrite !getConnectedCellAndMembraneDistance_spec. cbn [fst snd].
  rewrite <- (candidates_same_geometry op.1 _ w w1 H),
          <- (same_geometry_correctedRadius w w1 _ H),
          <- (candidates_same_geometry op.2 _ w w1' H'),
          <- (same_geometry_correctedRadius w w1' _ H').
  exists w2. split; [|exact H2].
  now destruct (_ <? _).
Qed.

Lemma checkPair_fold (w : World) (l : list (CellId * CellId)) :
  ∀ nc w1, same_geometry w w1 →
    ∃ w2, fold_left checkPair l (nc, w1) = (fold_left (propose w) l nc, w2)
          ∧ same_geometry w w2.
Proof.
  induction l as [|jk l IH]; intros nc w1 H; [now exists w1|].
  cbn [fold_left]. destruct (checkPair_spec w w1 nc jk H) as (w2 & -> & H2).
  apply IH, H2.
Qed.

(** The three nested loops are one pass over [pairs_of]. *)
Lemma scan_flat (gridCells : list (list (list CellId))) :
  ∀ st,
    fold_left
      (fun st batch =>
         fold_left (fun st batch_i => fold_left checkPair (pairs batch_i) st) batch st)
      gridCells st
    = fold_left checkPair (pairs_of gridCells) st.
Proof.
  unfold pairs_of.
  induction gridCells as [|batch gridCells IH]; intros st; [reflexivity|].
  cbn [fold_left concat]. rewrite IH, fmap_app, concat_app, fold_left_app. f_equal.
  clear IH. revert st. induction batch as [|batch_i batch IHb]; intros st; [reflexivity|].
  cbn [fold_left]. rewrite IHb. csimpl. now rewrite fold_left_app.
Qed.

Lemma checkForCellCellConnections_scan_spec
    (gridCells : list (list (list CellId))) (w : World) :
  ∃ w2, checkForCellCellConnections_scan gridCells w
        = (fold_left (propose w) (pairs_of gridCells) [], w2)
        ∧ same_geometry w w2.
Proof.
  unfold checkForCellCellConnections_scan. rewrite scan_flat.
  apply checkPair_fold, same_geometry_refl.
Qed.

Lemma make_ordered_cell_pair_comm (a b : CellId) :
  make_ordered_cell_pair a b = make_ordered_cell_pair b a.
Proof.
  unfold make_ordered_cell_pair.
  destruct (Nat.ltb_spec a b), (Nat.ltb_spec b a); try reflexivity; try lia.
  f_equal; lia.
Qed.

Lemma make_ordered_cell_pair_inj (a b c d : CellId) :
  make_ordered_cell_pair a b = make_ordered_cell_pair c d →
  (a = c ∧ b = d) ∨ (a = d ∧ b = c).
Proof.
  unfold make_ordered_cell_pair.
  destruct (Nat.ltb_spec a b), (Nat.ltb_spec c d); intros [= -> ->]; auto.
Qed.

Lemma make_ordered_cell_pair_idem (a b : CellId) :
  let op := make_ordered_cell_pair a b in make_ordered_cell_pair op.1 op.2 = op.
Proof.
  unfold make_ordered_cell_pair.
  destruct (Nat.ltb_spec a b) as [H|H]; simpl.
  - destruct (Nat.ltb_spec a b); [reflexivity|lia].
  - destruct (Nat.ltb_spec b a); [reflexivity|]. f_equal; lia.
Qed.

Lemma propose_fold_ok (w : World) (l : list (CellId * CellId)) :
  ∀ nc, NoDup nc → Forall (proposal_ok w) nc →
    NoDup (fold_left (propose w) l nc) ∧ Forall (proposal_ok w) (fold_left (propose w) l nc).
Proof.
  induction l as [|jk l IH]; intros nc Hnd Hok; [now split|].
  cbn [fold_left]. apply IH; unfold propose.
  - destruct (cheapTest w _ && admissible w nc _ && preciseTest w _) eqn:E; [|exact Hnd].
    apply NoDup_app. repeat split; [exact Hnd| |apply NoDup_singleton].
    intros x Hx Hx'. apply list_elem_of_singleton in Hx'. subst x.
    unfold admissible in E. rewrite !andb_true_iff, !negb_true_iff in E.
    destruct E as [[_ [[_ E] _]] _]. now apply bool_decide_eq_false in E.
  - destruct (cheapTest w _ && admissible w nc _ && preciseTest w _) eqn:E; [|exact Hok].
    apply Forall_app. split; [exact Hok|]. apply Forall_singleton.
    unfold admissible in E. rewrite !andb_true_iff, !negb_true_iff in E.
    destruct E as [[Hcheap [[Hcon _] Hne]] Hprec].
    apply bool_decide_eq_false in Hne.
    repeat split; auto. apply make_ordered_cell_pair_idem.
Qed.

End Scan.

(** ** One connection per pair of cells *)

Section Graph.

Context {T : Tools}.
Local Open Scope float_scope.

Lemma endpoints_same_geometry (w w' : World) (cc : ConnId) :
  same_geometry w w' → endpoints w cc = endpoints w' cc.
Proof.
  intros H. unfold endpoints. now rewrite (sg_node0 _ _ H), (sg_node1 _ _ H).
Qed.

Lemma endpoints_list_same_geometry (w w' : World) :
  same_geometry w w' → endpoints w <$> container w = endpoints w' <$> container w'.
Proof.
  intros H. rewrite <- (sg_container _ _ H).
  apply list_fmap_ext. intros i cc _. now apply endpoints_same_geometry.
Qed.

(** The invariant is a property of the geometry. *)
Lemma graph_invariant_same_geometry (w w' : World) :
  same_geometry w w' → graph_invariant w → graph_invariant w'.
Proof.
  intros H [Hown Hirr Huniq Hviews Hptr]. split.
  - intros cc Hcc. rewrite <- (sg_container _ _ H) in Hcc.
    apply elem_of_dom. rewrite <- (sg_owned _ _ H). apply elem_of_dom. now apply Hown.
  - intros cc Hcc. rewrite <- (sg_container _ _ H) in Hcc.
    rewrite <- (sg_node0 _ _ H), <- (sg_node1 _ _ H). now apply Hirr.
  - now rewrite <- (endpoints_list_same_geometry w w' H).
  - intros a b.
    rewrite <- (same_geometry_connectedCells w w' a H),
            <- (endpoints_list_same_geometry w w' H).
    apply Hviews.
  - intros a cc.
    rewrite <- (same_geometry_cellConnections w w' a H), <- (sg_container _ _ H),
            <- (sg_node0 _ _ H), <- (sg_node1 _ _ H).
    apply Hptr.
Qed.

(** The effect of [CCCM::createConnection] on the two views. *)
Lemma createConnection_container (c0 c1 : CellId) (con : Connection) (w : World) :
  container (CCCM.createConnection c0 c1 con w)
  = container w ++ [fresh (dom (connections w))].
Proof. reflexivity. Qed.

Lemma createConnection_connections (c0 c1 : CellId) (con : Connection) (w : World) :
  connections (CCCM.createConnection c0 c1 con w)
  = <[fresh (dom (connections w)) := con]> (connections w).
Proof. reflexivity. Qed.

Lemma createConnection_connectedCells (c0 c1 : CellId) (con : Connection) (w : World)
    (a b : CellId) :
  b ∈ connectedCells (cell (CCCM.createConnection c0 c1 con w) a)
  ↔ b ∈ connectedCells (cell w a) ∨ (a = c0 ∧ b = c1) ∨ (a = c1 ∧ b = c0).
Proof.
  unfold CCCM.createConnection. cbn zeta.
  change (cell (upd_container ?f ?w) a) with (cell w a).
  rewrite !cell_on_cell.
  change (cell (upd_connections ?f ?w) ?c) with (cell w c).
  destruct (decide (c1 = a)) as [->|H1], (decide (c0 = a)) as [->|H0];
    cbn [connectedCells set_connectedCells set_membrane];
    repeat (destruct (decide _); try congruence);
    cbn [connectedCells set_connectedCells set_membrane];
    rewrite ?elem_of_union, ?elem_of_singleton; intuition congruence.
Qed.

Lemma createConnection_cellConnections (c0 c1 : CellId) (con : Connection) (w : World)
    (a : CellId) (cc : ConnId) :
  cc ∈ cellConnections (membrane (cell (CCCM.createConnection c0 c1 con w) a))
  ↔ cc ∈ cellConnections (membrane (cell w a))
    ∨ (cc = fresh (dom (connections w)) ∧ (a = c0 ∨ a = c1)).
Proof.
  unfold CCCM.createConnection. cbn zeta.
  change (cell (upd_container ?f ?w) a) with (cell w a).
  rewrite !cell_on_cell.
  change (cell (upd_connections ?f ?w) ?c) with (cell w c).
  destruct (decide (c1 = a)) as [->|H1], (decide (c0 = a)) as [->|H0];
    cbn [membrane cellConnections set_connectedCells set_membrane set_cellConnections];
    repeat (destruct (decide _); try congruence);
    cbn [membrane cellConnections set_connectedCells set_membrane set_cellConnections];
    rewrite ?elem_of_app, ?list_elem_of_singleton; intuition congruence.
Qed.

Lemma createConnection_conn_old (c0 c1 : CellId) (con : Connection) (w : World)
    (cc : ConnId) :
  is_Some (connections w !! cc) →
  conn (CCCM.createConnection c0 c1 con w) cc = conn w cc.
Proof.
  intros Hcc. unfold conn. rewrite createConnection_connections.
  apply lookup_total_insert_ne. intros <-.
  apply elem_of_dom in Hcc. exact (is_fresh _ Hcc).
Qed.

Lemma createConnection_conn_new (c0 c1 : CellId) (con : Connection) (w : World) :
  conn (CCCM.createConnection c0 c1 con w) (fresh (dom (connections w))) = con.
Proof.
  unfold conn. rewrite createConnection_connections. apply lookup_total_insert_eq.
Qed.

Lemma createConnection_endpoints (c0 c1 : CellId) (con : Connection) (w : World) :
  (∀ cc, cc ∈ container w → is_Some (connections w !! cc)) →
  node0 con = c0 → node1 con = c1 →
  let w' := CCCM.createConnection c0 c1 con w in
  endpoints w' <$> container w'
  = (endpoints w <$> container w) ++ [make_ordered_cell_pair c0 c1].
Proof.
  intros Hown H0 H1 w'. subst w'. rewrite createConnection_container, fmap_app.
  f_equal.
  - apply list_fmap_ext. intros i cc Hcc. unfold endpoints.
    rewrite createConnection_conn_old; [reflexivity|].
    apply Hown. eapply list_elem_of_lookup_2. exact Hcc.
  - cbn [fmap list_fmap]. unfold endpoints.
    now rewrite createConnection_conn_new, H0, H1.
Qed.

(** A new connection between two distinct cells that were not linked keeps
    the invariant. *)
Lemma createConnection_invariant (c0 c1 : CellId) (con : Connection) (w : World) :
  graph_invariant w →
  node0 con = c0 → node1 con = c1 → c0 ≠ c1 →
  make_ordered_cell_pair c0 c1 ∉ endpoints w <$> container w →
  graph_invariant (CCCM.createConnection c0 c1 con w).
Proof.
  intros [Hown Hirr Huniq Hviews Hptr] H0 H1 Hne Hnew.
  pose proof (createConnection_endpoints c0 c1 con w Hown H0 H1) as Hends.
  cbv zeta in Hends. split.
  - intros cc. rewrite createConnection_container, createConnection_connections.
    intros [Hcc| ->%list_elem_of_singleton]%elem_of_app.
    + apply lookup_insert_is_Some'. right. now apply Hown.
    + apply lookup_insert_is_Some'. now left.
  - intros cc. rewrite createConnection_container.
    intros [Hcc| ->%list_elem_of_singleton]%elem_of_app.
    + rewrite createConnection_conn_old by now apply Hown. now apply Hirr.
    + rewrite createConnection_conn_new. congruence.
  - rewrite Hends. apply NoDup_app. repeat split; [exact Huniq| |apply NoDup_singleton].
    intros x Hx ->%list_elem_of_singleton. contradiction.
  - intros a b. rewrite Hends, createConnection_connectedCells, elem_of_app,
      list_elem_of_singleton, Hviews. split.
    + intros [[? ?]|[[-> ->]|[-> ->]]]; auto.
      split; [congruence|]. right. apply make_ordered_cell_pair_comm.
    + intros [Hab [?|E]]; [now left|right].
      apply make_ordered_cell_pair_inj in E. tauto.
  - intros a cc.
    rewrite createConnection_cellConnections, createConnection_container, elem_of_app,
      list_elem_of_singleton, Hptr.
    split.
    + intros [[Hcc Hn]|[-> Ha]].
      * split; [now left|]. rewrite createConnection_conn_old by now apply Hown. exact Hn.
      * split; [now right|]. rewrite createConnection_conn_new, H0, H1.
        destruct Ha; auto.
    + intros [[Hcc| ->] Hn].
      * left. split; [exact Hcc|].
        rewrite createConnection_conn_old in Hn by now apply Hown. exact Hn.
      * right. split; [reflexivity|].
        rewrite createConnection_conn_new, H0, H1 in Hn. destruct Hn; auto.
Qed.

Lemma createConnection_unfold (c0 c1 : CellId) (w : World) :
  ∃ con, node0 con = c0 ∧ node1 con = c1
         ∧ createConnection c0 c1 w = CCCM.createConnection c0 c1 con w.
Proof.
  unfold createConnection. eexists (mkConnection c0 c1 _ _ _). repeat split.
Qed.

(** Creating the proposed pairs one after the other keeps the invariant,
    as long as they are distinct pairs of distinct cells that the container
    does not link yet. *)
Lemma createConnections_invariant (ncs : list (CellId * CellId)) :
  ∀ w,
    graph_invariant w → NoDup ncs →
    Forall (λ op, make_ordered_cell_pair op.1 op.2 = op ∧ op.1 ≠ op.2
                  ∧ op ∉ endpoints w <$> container w) ncs →
    let w' := fold_left (fun w nc => createConnection nc.1 nc.2 w) ncs w in
    graph_invariant w'
    ∧ endpoints w' <$> container w' = (endpoints w <$> container w) ++ ncs.
Proof.
  induction ncs as [|nc ncs IH]; intros w Hinv Hnd Hok.
  - cbn. now rewrite app_nil_r.
  - cbn [fold_left]. apply NoDup_cons in Hnd as [Hnc Hnd].
    apply Forall_cons in Hok as [(Hord & Hne & Hnew) Hok].
    destruct (createConnection_unfold nc.1 nc.2 w) as (con & H0 & H1 & ->).
    assert (Hinv1 : graph_invariant (CCCM.createConnection nc.1 nc.2 con w)).
    { apply createConnection_invariant; auto. now rewrite Hord. }
    pose proof (createConnection_endpoints nc.1 nc.2 con w (gi_owned _ Hinv) H0 H1) as He.
    cbv zeta in He. rewrite Hord in He.
    destruct (IH (CCCM.createConnection nc.1 nc.2 con w) Hinv1 Hnd) as [Hinv' He'].
    + apply Forall_forall. intros op Hop. rewrite Forall_forall in Hok.
      destruct (Hok op Hop) as (? & ? & ?). repeat split; auto.
      rewrite He, elem_of_app, list_elem_of_singleton.
      intros [?| ->]; contradiction.
    + split; [exact Hinv'|]. rewrite He', He, <- app_assoc. reflexivity.
Qed.

(** C2.  Starting from a graph in which no pair of cells is linked twice
    and both views agree, [checkForCellCellConnections] ends in such a
    graph: the connections it creates are for distinct pairs of distinct
    cells that were not connected, and running the test again creates no
    second connection for a pair. *)
Theorem checkForCellCellConnections_no_duplicate
    (cells : list CellId) (grid : World → list CellId → list (list (list CellId)))
    (w : World) :
  graph_invariant w →
  let w' := checkForCellCellConnections cells grid w in
  graph_invariant w'
  ∧ (∃ ncs, endpoints w' <$> container w' = (endpoints w <$> container w) ++ ncs
            ∧ NoDup ncs
            ∧ Forall (λ op, op.1 ≠ op.2 ∧ CCCM.areConnected w op.1 op.2 = false
                            ∧ op ∉ endpoints w <$> container w) ncs)
  ∧ ∀ cells' grid', graph_invariant (checkForCellCellConnections cells' grid' w').
Proof.
  assert (Hmain : ∀ cells grid w, graph_invariant w →
            let w' := checkForCellCellConnections cells grid w in
            graph_invariant w'
            ∧ ∃ ncs, endpoints w' <$> container w' = (endpoints w <$> container w) ++ ncs
                     ∧ NoDup ncs
                     ∧ Forall (λ op, op.1 ≠ op.2 ∧ CCCM.areConnected w op.1 op.2 = false
                                     ∧ op ∉ endpoints w <$> container w) ncs).
  { clear. intros cells grid w Hinv. unfold checkForCellCellConnections. cbv zeta.
    pose proof (same_geometry_refreshes (container w) w) as H1.
    fold (refreshAll w) in H1. set (w1 := refreshAll w) in *.
    destruct (checkForCellCellConnections_scan_spec (grid w1 cells) w1) as (w2 & -> & H2).
    set (ncs := fold_left (propose w1) _ []).
    destruct (propose_fold_ok w1 (pairs_of (grid w1 cells)) [] (NoDup_nil_2) (Forall_nil_2 _))
      as [Hnd Hok]. fold ncs in Hnd, Hok.
    assert (H12 : same_geometry w w2) by (eapply same_geometry_trans; eassumption).
    pose proof (graph_invariant_same_geometry w w2 H12 Hinv) as Hinv2.
    assert (Hok2 : Forall (λ op, make_ordered_cell_pair op.1 op.2 = op ∧ op.1 ≠ op.2
                                 ∧ op ∉ endpoints w2 <$> container w2) ncs).
    { eapply Forall_impl; [exact Hok|]. intros op (Hord & Hne & Hcon & _).
      repeat split; auto. intros Hin.
      rewrite (areConnected_same_geometry w1 w2 _ _ H2) in Hcon.
      unfold CCCM.areConnected in Hcon. apply bool_decide_eq_false in Hcon.
      apply Hcon. apply (gi_views _ Hinv2). split; [exact Hne|]. now rewrite Hord. }
    destruct (createConnections_invariant ncs w2 Hinv2 Hnd Hok2) as [Hinv' He].
    split; [exact Hinv'|]. exists ncs.
    rewrite He, <- (endpoints_list_same_geometry w w2 H12). split; [reflexivity|].
    split; [exact Hnd|].
    apply Forall_forall. intros op Hop.
    rewrite Forall_forall in Hok, Hok2.
    destruct (Hok op Hop) as (_ & Hne & Hcon & _).
    destruct (Hok2 op Hop) as (_ & _ & Hnew).
    rewrite <- (areConnected_same_geometry w w1 _ _ H1) in Hcon.
    rewrite <- (endpoints_list_same_geometry w w2 H12) in Hnew. auto. }
  intros Hinv w'. destruct (Hmain cells grid w Hinv) as [Hinv' Hnew].
  split; [exact Hinv'|]. split; [exact Hnew|].
  intros cells' grid'. apply Hmain, Hinv'.
Qed.

End Graph.

(** Two cells that are not linked form a graph that satisfies the
    invariant. *)
Lemma two_cells_isolated (x : float_t) (a : CellId) :
  connectedCells (cell (Scene.two_cells x) a) = ∅.
Proof.
  unfold cell, Scene.two_cells, Scene.world. cbn [cells list_to_map foldr].
  rewrite !lookup_total_insert. cbn [fst snd].
  repeat case_decide; reflexivity.
Qed.

Lemma two_cells_unlinked (x : float_t) (a : CellId) :
  cellConnections (membrane (cell (Scene.two_cells x) a)) = [].
Proof.
  unfold cell, Scene.two_cells, Scene.world. cbn [cells list_to_map foldr].
  rewrite !lookup_total_insert. cbn [fst snd].
  repeat case_decide; reflexivity.
Qed.

Lemma two_cells_invariant (x : float_t) : graph_invariant (Scene.two_cells x).
Proof.
  split.
  - intros cc Hcc. inversion Hcc.
  - intros cc Hcc. inversion Hcc.
  - apply NoDup_nil_2.
  - intros a b. rewrite two_cells_isolated. split.
    + intros H. inversion H.
    + intros [_ H]. inversion H.
  - intros a cc. rewrite two_cells_unlinked. split.
    + intros H. inversion H.
    + intros [H _]. inversion H.
Qed.

(** Two cells of radius 1 at distance 1.5 get one connection, and a second
    run of the test leaves it at that. *)
Lemma checkForCellCellConnections_no_duplicate_witness :
  let w := Scene.two_cells (fl 1.5) in
  let check := checkForCellCellConnections (T := Decimal.tools) [0; 1]
                 (Scene.one_batch [0; 1]) in
  graph_invariant (check w)
  ∧ graph_invariant (check (check w))
  ∧ endpoints (check w) <$> container (check w) = [(0, 1)]
  ∧ endpoints (check (check w)) <$> container (check (check w)) = [(0, 1)].
Proof.
  intros w check.
  destruct (checkForCellCellConnections_no_duplicate (T := Decimal.tools) [0; 1]
              (Scene.one_batch [0; 1]) w (two_cells_invariant _)) as (H1 & _ & H2).
  split; [exact H1|]. split; [apply H2|].
  split; vm_compute; reflexivity.
Defined.

(** ** The threshold of the cheap test *)

Section Threshold.

Context {T : Tools}.
Local Open Scope float_scope.

Lemma createConnections_connectedCells (ncs : list (CellId * CellId)) :
  ∀ w a b,
    b ∈ connectedCells
          (cell (fold_left (fun w nc => createConnection nc.1 nc.2 w) ncs w) a)
    ↔ b ∈ connectedCells (cell w a) ∨ (a, b) ∈ ncs ∨ (b, a) ∈ ncs.
Proof.
  induction ncs as [|[c0 c1] ncs IH]; intros w a b.
  - cbn. split; [auto|]. intros [?|[H|H]]; [assumption|inversion H|inversion H].
  - cbn [fold_left fst snd].
    destruct (createConnection_unfold c0 c1 w) as (con & _ & _ & ->).
    rewrite IH, createConnection_connectedCells, !elem_of_cons.
    split.
    + intros [[?|[[-> ->]|[-> ->]]]|[?|?]]; auto.
    + intros [?|[[[= -> ->]|?]|[[= -> ->]|?]]]; auto 6.
Qed.

(** Every proposed pair passed the cheap test, and is in pointer order. *)
Lemma proposals_cheap (w : World) (l : list (CellId * CellId)) (op : CellId * CellId) :
  op ∈ fold_left (propose w) l [] →
  make_ordered_cell_pair op.1 op.2 = op ∧ cheapTest w op = true.
Proof.
  intros Hop.
  destruct (propose_fold_ok w l [] NoDup_nil_2 (Forall_nil_2 _)) as [_ Hok].
  rewrite Forall_forall in Hok. destruct (Hok op Hop) as (? & _ & _ & ? & _). auto.
Qed.


End Threshold.


(** ** Degenerate geometry *)

Lemma float_same_eq (a b : float_t) : Float.same a b = true → a = b.
Proof.
  destruct a as [p| | |], b as [q| | |]; try (simpl; congruence).
  simpl. intros H. f_equal. apply Qc_is_canon. now apply Qeq_bool_iff.
Qed.

Lemma vec_same_eq (u v : Vec) : V.same u v = true → u = v.
Proof.
  destruct u, v. unfold V.same. simpl.
  rewrite !andb_true_iff. intros [[? ?] ?]. f_equal; now apply float_same_eq.
Qed.

(** Closed equalities between computed values. *)
Ltac float_eq :=
  first [ apply float_same_eq | apply vec_same_eq | idtac ]; vm_compute; reflexivity.

Section Degenerate.

Context {T : Tools}.
Local Open Scope float_scope.

Lemma surface_zero (m : Membrane) : radius m = Float.zero → surface m = Float.zero.
Proof.
  intros Hr. unfold surface. rewrite Hr. unfold M_PI, fl, Float.of_Q, Float.zero.
  cbn [Float.mul]. f_equal; ring.
Qed.

Lemma computePressure_pressure (this : CellId) (w : World) :
  pressure (membrane (cell (computePressure this w) this))
  = roundN (totalForce (cell w this) / surface (membrane (cell w this))).
Proof. unfold computePressure. now rewrite cell_on_cell_eq. Qed.

Lemma div_vec_zero (d : float_t) :
  d = Float.zero → V.div V.zero d = mkVec NaN NaN NaN.
Proof. now intros ->. Qed.


End Degenerate.



(** ** Validity of the connections *)

Section Validity.

Context {T : Tools}.
Local Open Scope float_scope.

Lemma refreshes_app (l1 l2 : list ConnId) (w : World) :
  refreshes (l1 ++ l2) w = refreshes l2 (refreshes l1 w).
Proof. apply fold_left_app. Qed.

(** Once the connections of a vector have been refreshed, a further
    refresh of any of them changes neither length nor direction. *)
Lemma refreshes_settled (ccs : list ConnId) (w : World) (cc : ConnId) :
  cc ∈ ccs →
  getLength (conn (refresh cc (refreshes ccs w)) cc) = getLength (conn (refreshes ccs w) cc)
  ∧ getDirection (conn (refresh cc (refreshes ccs w)) cc)
    = getDirection (conn (refreshes ccs w) cc).
Proof.
  induction ccs as [|x l IH] using rev_ind; intros Hcc; [inversion Hcc|].
  rewrite refreshes_app. cbn [refreshes fold_left]. fold (refreshes l w).
  set (w' := refreshes l w) in *.
  destruct (decide (cc = x)) as [->|Hne].
  - destruct (refreshed_same w' (refresh x w') x (same_geometry_refresh w' x))
      as (_ & _ & Hl & Hd).
    now rewrite <- Hl, <- Hd.
  - apply elem_of_app in Hcc as [Hcc|Hcc%list_elem_of_singleton]; [|contradiction].
    destruct (refreshed_same w' (refresh x w') cc (same_geometry_refresh w' x))
      as (_ & _ & Hl & Hd).
    rewrite <- Hl, <- Hd.
    unfold refresh at 2 4. rewrite (conn_on_conn_ne x cc) by congruence.
    now apply IH.
Qed.

Lemma settled_refreshAll (w : World) : settled (refreshAll w).
Proof.
  intros cc Hcc. unfold refreshAll in *.
  rewrite <- (sg_container _ _ (same_geometry_refreshes (container w) w)) in Hcc.
  now apply refreshes_settled.
Qed.

Lemma same_cache_refl (w : World) : same_cache w w.
Proof. now intros cc _. Qed.

(** The cache of a settled world survives the refreshes of the queries. *)
Lemma same_cache_refresh (w1 w' : World) (cc' : ConnId) :
  settled w1 → same_geometry w1 w' → same_cache w1 w' →
  same_cache w1 (refresh cc' w').
Proof.
  intros Hset Hgeo Hcache cc Hcc. destruct (decide (cc' = cc)) as [->|Hne].
  - destruct (refreshed_same w1 w' cc Hgeo) as (_ & _ & Hl & Hd).
    destruct (Hset cc Hcc) as [Hl1 Hd1]. now rewrite <- Hl, <- Hd, Hl1, Hd1.
  - unfold refresh. rewrite (conn_on_conn_ne cc' cc) by assumption. now apply Hcache.
Qed.

Lemma same_cache_refreshes (w1 : World) (ccs : list ConnId) :
  settled w1 →
  ∀ w', same_geometry w1 w' → same_cache w1 w' → same_cache w1 (refreshes ccs w').
Proof.
  intros Hset. induction ccs as [|cc ccs IH]; intros w' Hgeo Hcache; [exact Hcache|].
  cbn [refreshes fold_left]. apply IH.
  - eapply same_geometry_trans; [exact Hgeo|apply same_geometry_refresh].
  - now apply same_cache_refresh.
Qed.

(** Rescaling the joints, resetting the rest length and accumulating the
    forces touch neither the geometry nor the cache. *)
Lemma same_cache_on_conn (w1 w' : World) (cc' : ConnId) (f : Connection → Connection) :
  (∀ con, getLength (f con) = getLength con ∧ getDirection (f con) = getDirection con) →
  same_cache w1 w' → same_cache w1 (on_conn cc' f w').
Proof.
  intros Hf Hcache cc Hcc. destruct (decide (cc' = cc)) as [->|Hne].
  - rewrite conn_on_conn_eq. destruct (Hcache cc Hcc) as [Hl Hd].
    destruct (connections w' !! cc) eqn:E; [|now split].
    rewrite (conn_lookup _ _ _ E) in Hl, Hd. destruct (Hf c) as [-> ->]. now split.
  - rewrite (conn_on_conn_ne cc' cc) by assumption. now apply Hcache.
Qed.

Lemma computeForces_same_geometry (dt : float_t) (cc : ConnId) (w : World) :
  same_geometry w (computeForces dt cc w).
Proof.
  unfold computeForces. destruct (connectionForces _ _ _ _) as [[f0 t0] [f1 t1]].
  eapply same_geometry_trans; apply same_geometry_on_cell; now intros x.
Qed.

Lemma computeForces_conn (dt : float_t) (cc cc' : ConnId) (w : World) :
  conn (computeForces dt cc w) cc' = conn w cc'.
Proof.
  unfold computeForces. now destruct (connectionForces _ _ _ _) as [[f0 t0] [f1 t1]].
Qed.

(** The body of the second loop queues the connection exactly when it is
    [invalid] in the refreshed world. *)
Lemma updateCellCellConnections_step_spec (dt : float_t) (w1 w' : World)
    (toErase : list (CellId * CellId * ConnId)) (cc : ConnId) :
  settled w1 → cc ∈ container w1 → scanning w1 w' →
  ∃ w'',
    updateCellCellConnections_step dt (toErase, w') cc
    = (if invalid w1 cc
       then toErase ++ [(node0 (conn w1 cc), node1 (conn w1 cc), cc)]
       else toErase, w'')
    ∧ scanning w1 w''.
Proof.
  intros Hset Hcc [Hgeo Hcache]. unfold updateCellCellConnections_step.
  rewrite <- (sg_node0 _ _ Hgeo cc), <- (sg_node1 _ _ Hgeo cc).
  destruct (Hcache cc Hcc) as [_ <-].
  rewrite (getConnectedCellAndMembraneDistance_spec _ _ w').
  set (wa := refreshes _ w').
  assert (Hgeo_a : same_geometry w1 wa).
  { eapply same_geometry_trans; [exact Hgeo|apply same_geometry_refreshes]. }
  assert (Hcache_a : same_cache w1 wa) by now apply same_cache_refreshes.
  destruct (Hcache_a cc Hcc) as [_ <-].
  rewrite (getConnectedCellAndMembraneDistance_spec _ _ wa).
  set (wb := refreshes _ wa).
  assert (Hgeo_b : same_geometry w1 wb).
  { eapply same_geometry_trans; [exact Hgeo_a|apply same_geometry_refreshes]. }
  assert (Hcache_b : same_cache w1 wb) by now apply same_cache_refreshes.
  destruct (Hcache_b cc Hcc) as [<- _].
  cbn [fst snd].
  rewrite <- (candidates_same_geometry _ _ w1 w' Hgeo),
          <- (candidates_same_geometry _ _ w1 wa Hgeo_a),
          <- !(same_geometry_correctedRadius w1 w' _ Hgeo),
          <- !(same_geometry_correctedRadius w1 wa _ Hgeo_a),
          <- !(same_geometry_correctedRadius w1 wb _ Hgeo_b).
  assert (Hinv : invalid w1 cc
            = (getLength (conn w1 cc)
               >? roundN (correctedRadius (membrane (cell w1 (node0 (conn w1 cc))))
                          + correctedRadius (membrane (cell w1 (node1 (conn w1 cc))))))
              || negb (isInVector (node0 (conn w1 cc))
                         (closest ([], correctedRadius (membrane (cell w1 (node1 (conn w1 cc)))))
                            (candidates (node1 (conn w1 cc))
                               (roundN_vec (V.opp (getDirection (conn w1 cc)))) w1)).1)
              || negb (isInVector (node1 (conn w1 cc))
                         (closest ([], correctedRadius (membrane (cell w1 (node0 (conn w1 cc)))))
                            (candidates (node0 (conn w1 cc))
                               (roundN_vec (getDirection (conn w1 cc))) w1)).1)).
  { unfold invalid, tooLong, c0ClosestToC1, c1ClosestToC0, getConnectedCell.
    now rewrite !getConnectedCellAndMembraneDistance_spec. }
  rewrite <- Hinv. destruct (invalid w1 cc).
  - exists wb. now split.
  - eexists. split; [reflexivity|]. split.
    + eapply same_geometry_trans; [|apply computeForces_same_geometry].
      eapply same_geometry_trans; [|apply same_geometry_on_conn; now intros con].
      eapply same_geometry_trans; [exact Hgeo_b|].
      apply same_geometry_on_conn. now intros con.
    + intros cc' Hcc'. rewrite computeForces_conn. revert cc' Hcc'.
      apply same_cache_on_conn; [now intros con|].
      apply same_cache_on_conn; [now intros con|]. exact Hcache_b.
Qed.

Lemma updateCellCellConnections_loop (dt : float_t) (w1 : World) (ccs : list ConnId) :
  settled w1 → (∀ cc, cc ∈ ccs → cc ∈ container w1) →
  ∀ toErase w', scanning w1 w' →
    ∃ w'',
      fold_left (updateCellCellConnections_step dt) ccs (toErase, w')
      = (toErase
         ++ ((λ cc, (node0 (conn w1 cc), node1 (conn w1 cc), cc))
             <$> filter (λ cc, invalid w1 cc = true) ccs), w'')
      ∧ scanning w1 w''.
Proof.
  intros Hset. induction ccs as [|cc ccs IH]; intros Hin toErase w' Hscan.
  - exists w'. cbn. now rewrite app_nil_r.
  - cbn [fold_left].
    destruct (updateCellCellConnections_step_spec dt w1 w' toErase cc Hset
                (Hin cc (list_elem_of_here _ _)) Hscan) as (w'' & -> & Hscan'').
    destruct (IH (λ x Hx, Hin x (list_elem_of_further _ _ _ Hx))
                (if invalid w1 cc
                 then toErase ++ [(node0 (conn w1 cc), node1 (conn w1 cc), cc)]
                 else toErase) w'' Hscan'')
      as (w3 & -> & Hscan3).
    exists w3. split; [|exact Hscan3]. f_equal.
    destruct (invalid w1 cc) eqn:E.
    + rewrite filter_cons_True by exact E. cbn [fmap list_fmap].
      now rewrite <- app_assoc.
    + rewrite filter_cons_False; [reflexivity|]. now rewrite E.
Qed.

Lemma filter_iff_in {A} (P Q : A → Prop) `{!∀ x, Decision (P x), !∀ x, Decision (Q x)}
    (l : list A) :
  (∀ x, x ∈ l → (P x ↔ Q x)) → filter P l = filter Q l.
Proof.
  induction l as [|a l IH]; intros Hall; [reflexivity|].
  assert (Ha : P a ↔ Q a) by (apply Hall, list_elem_of_here).
  assert (Hl : filter P l = filter Q l).
  { apply IH. intros x Hx. apply Hall. now apply list_elem_of_further. }
  destruct (decide (P a)) as [HP|HP].
  - rewrite !filter_cons_True by tauto. now rewrite Hl.
  - rewrite !filter_cons_False by tauto. exact Hl.
Qed.

(** The removals after the scan: every queued connection leaves the
    container. *)
Lemma disconnect_all_container (toErase : list (CellId * CellId * ConnId)) :
  ∀ w,
    container (fold_left (fun w p => CCCM.disconnect p.1.1 p.1.2 p.2 w) toErase w)
    = filter (λ cc, cc ∉ toErase.*2) (container w).
Proof.
  induction toErase as [|p toErase IH]; intros w.
  - cbn. symmetry. induction (container w) as [|cc l IHl]; [reflexivity|].
    rewrite filter_cons_True; [now rewrite IHl|]. intros H. inversion H.
  - cbn [fold_left]. rewrite IH.
    change (container (CCCM.disconnect p.1.1 p.1.2 p.2 w))
      with (filter (λ x, x ≠ p.2) (container w)).
    rewrite list_filter_filter. apply list_filter_iff. intros cc.
    cbn [fmap list_fmap]. rewrite not_elem_of_cons. tauto.
Qed.

(** C1.  [w1] is the world once the first loop has refreshed every
    connection.  The second loop queues a connection of the container if
    and only if it is too long (its length exceeds the rounded sum of the
    corrected radii of its endpoints) or one endpoint is not among the
    nearest connected neighbours of the other along the connection axis; a
    failure on one side alone is enough.  The container is untouched while
    it is scanned, and the queued connections are exactly those that have
    left it when [updateCellCellConnections] returns. *)
Theorem updateCellCellConnections_removal (dt : float_t) (w : World) :
  let w1 := refreshAll w in
  let scan := updateCellCellConnections_scan dt w in
  scan.1 = (λ cc, (node0 (conn w1 cc), node1 (conn w1 cc), cc))
           <$> filter (λ cc, invalid w1 cc = true) (container w)
  ∧ (∀ cc, cc ∈ container w →
       (cc ∈ scan.1.*2
        ↔ tooLong w1 cc = true ∨ c0ClosestToC1 w1 cc = false ∨ c1ClosestToC0 w1 cc = false))
  ∧ (∀ cc, cc ∈ container w →
       c1ClosestToC0 w1 cc = true → c0ClosestToC1 w1 cc = false → cc ∈ scan.1.*2)
  ∧ container scan.2 = container w
  ∧ container (updateCellCellConnections dt w)
    = filter (λ cc, invalid w1 cc = false) (container w).
Proof.
  intros w1 scan.
  pose proof (same_geometry_refreshes (container w) w) as Hgeo1.
  fold (refreshAll w) in Hgeo1. fold w1 in Hgeo1.
  pose proof (sg_container _ _ Hgeo1) as Hcont.
  destruct (updateCellCellConnections_loop dt w1 (container w1) (settled_refreshAll w)
              (λ cc H, H) [] w1 (conj (same_geometry_refl w1) (same_cache_refl w1)))
    as (w2 & Hscan & Hgeo2 & _).
  assert (Hscan' : scan = ((λ cc, (node0 (conn w1 cc), node1 (conn w1 cc), cc))
                           <$> filter (λ cc, invalid w1 cc = true) (container w), w2)).
  { subst scan. unfold updateCellCellConnections_scan. cbv zeta. fold w1.
    rewrite Hscan, Hcont. reflexivity. }
  assert (Hids : scan.1.*2 = filter (λ cc, invalid w1 cc = true) (container w)).
  { rewrite Hscan'. cbn [fst]. rewrite <- list_fmap_compose.
    apply list_fmap_id. }
  assert (Hiff : ∀ cc, cc ∈ container w →
            (cc ∈ scan.1.*2
             ↔ tooLong w1 cc = true ∨ c0ClosestToC1 w1 cc = false
               ∨ c1ClosestToC0 w1 cc = false)).
  { intros cc Hcc. rewrite Hids, list_elem_of_filter. unfold invalid.
    rewrite !orb_true_iff, !negb_true_iff. tauto. }
  split; [now rewrite Hscan'|]. split; [exact Hiff|]. split; [|split].
  - intros cc Hcc _ H. apply Hiff; auto.
  - rewrite Hscan'. cbn [snd]. now rewrite <- (sg_container _ _ Hgeo2).
  - unfold updateCellCellConnections. fold scan. rewrite (surjective_pairing scan).
    rewrite disconnect_all_container, Hids, Hscan'. cbn [snd].
    rewrite <- (sg_container _ _ Hgeo2), <- Hcont.
    apply filter_iff_in. intros cc Hcc. rewrite list_elem_of_filter.
    destruct (invalid w1 cc).
    + split; [|discriminate]. intros H. exfalso. apply H. auto.
    + split; [reflexivity|]. intros _ [H _]. discriminate H.
Qed.

End Validity.

(** The one-sided failure on three cells: A sees B, B sees C.  The
    connection between A and B is queued, the one between B and C is not,
    and only the latter is left in the container. *)
Lemma updateCellCellConnections_removal_witness :
  let w := Scene.three_cells in
  let w1 := refreshAll (T := Decimal.tools) w in
  let scan := updateCellCellConnections_scan (T := Decimal.tools) Float.one w in
  c1ClosestToC0 (T := Decimal.tools) w1 0 = true
  ∧ c0ClosestToC1 (T := Decimal.tools) w1 0 = false
  ∧ tooLong (T := Decimal.tools) w1 0 = false
  ∧ 0 ∈ scan.1.*2
  ∧ (1 ∉ scan.1.*2)
  ∧ container scan.2 = [0; 1]
  ∧ container (updateCellCellConnections (T := Decimal.tools) Float.one w) = [1].
Proof.
  intros w w1 scan.
  destruct (updateCellCellConnections_removal (T := Decimal.tools) Float.one w)
    as (_ & Hiff & Hone & Hscan & Hend).
  assert (Hsees : c1ClosestToC0 (T := Decimal.tools) w1 0 = true)
    by (vm_compute; reflexivity).
  assert (Hunseen : c0ClosestToC1 (T := Decimal.tools) w1 0 = false)
    by (vm_compute; reflexivity).
  split; [exact Hsees|]. split; [exact Hunseen|]. split; [vm_compute; reflexivity|].
  split; [|split; [|split]].
  - apply Hone; [apply list_elem_of_here|exact Hsees|exact Hunseen].
  - intros Hin. apply Hiff in Hin; [|apply list_elem_of_further, list_elem_of_here].
    destruct Hin as [H|[H|H]]; vm_compute in H; discriminate H.
  - exact Hscan.
  - rewrite Hend. vm_compute. reflexivity.
Defined.

(** ** Removal of a cell *)

Section Removal.

Context {T : Tools}.

Lemma disconnect_model_connections (c0 c1 : CellId) (cc : ConnId) (w : World) :
  cellModelConnections (CCCM.disconnect c0 c1 cc w) = cellModelConnections w
  ∧ ∀ c, modelConnections (membrane (cell (CCCM.disconnect c0 c1 cc w) c))
         = modelConnections (membrane (cell w c)).
Proof.
  split; [reflexivity|]. intros c. unfold CCCM.disconnect. cbv zeta.
  change (cell (upd_connections ?f ?w) c) with (cell w c).
  change (cell (upd_container ?f ?w) c) with (cell w c).
  rewrite !cell_on_cell.
  repeat (case_decide; subst; cbn [membrane modelConnections set_membrane
            set_cellConnections set_connectedCells];
          rewrite ?cell_on_cell); reflexivity.
Qed.

(** [disconnectAndDeleteAllConnections] never touches a model connection:
    neither the container that owns them nor the pointers a membrane holds
    to them. *)
Lemma disconnectAndDeleteAllConnections_model_connections (c0 : CellId) (w : World) :
  cellModelConnections (disconnectAndDeleteAllConnections c0 w) = cellModelConnections w
  ∧ ∀ c, modelConnections (membrane (cell (disconnectAndDeleteAllConnections c0 w) c))
         = modelConnections (membrane (cell w c)).
Proof.
  unfold disconnectAndDeleteAllConnections.
  generalize (elements (connectedCells (cell w c0))). intros cop. revert w.
  induction cop as [|c1 cop IH]; intros w; [now split|].
  cbn [fold_left]. destruct (IH (CCCM.disconnect_cells c0 c1 w)) as [H1 H2].
  assert (Hd : cellModelConnections (CCCM.disconnect_cells c0 c1 w) = cellModelConnections w
               ∧ ∀ c, modelConnections (membrane (cell (CCCM.disconnect_cells c0 c1 w) c))
                      = modelConnections (membrane (cell w c))).
  { unfold CCCM.disconnect_cells. destruct (List.find _ _); [|now split].
    apply disconnect_model_connections. }
  destruct Hd as [Hd1 Hd2]. split.
  - now rewrite H1.
  - intros c. now rewrite H2.
Qed.

End Removal.

(** C7 on a cell that is linked to another cell and rests on a mesh.  After
    [disconnectAndDeleteAllConnections] the cell-cell connection is gone
    from the container and from both neighbour sets, but the model
    connection is still owned by the model container, still points to the
    cell, and is still held by the membrane of the cell. *)
Theorem disconnectAndDeleteAllConnections_leaves_model_connection :
  let w' := disconnectAndDeleteAllConnections 0 Scene.resting_pair in
  container w' = []
  ∧ connectedCells (cell w' 0) = ∅
  ∧ connectedCells (cell w' 1) = ∅
  ∧ modelConnections (membrane (cell w' 0)) = [7]
  ∧ cellModelConnections w' = {[5 := {[0 := [Scene.contact 7 5 0]]}]}
  ∧ bounce_node1 (bounce (Scene.contact 7 5 0)) = 0.
Proof. cbv zeta. repeat split; vm_compute; reflexivity. Qed.

(** ** The sweep of the model connections *)

Section Sweep.

Context {T : Tools}.
Local Open Scope float_scope.

(** Phase 1: every connection of the container is dirty. *)
Lemma markAllDirty_dirty (cmcs : CellModelConnectionContainer) (m : ModelId)
    (per_cell : gmap CellId (list CellModelConnection)) (c : CellId)
    (conns : list CellModelConnection) (conn : CellModelConnection) :
  markAllDirty cmcs !! m = Some per_cell → per_cell !! c = Some conns → conn ∈ conns →
  dirty conn = true.
Proof.
  unfold markAllDirty. rewrite lookup_fmap.
  destruct (cmcs !! m) as [pc|]; [|discriminate]. intros [= <-].
  rewrite lookup_fmap. destruct (pc !! c) as [l|]; [|discriminate]. intros [= <-].
  intros (x & -> & _)%list_elem_of_fmap. reflexivity.
Qed.

(** Phase 2, case 2: the first connection whose previous direction is
    similar enough to the current one is updated where it stands, with its
    dirty mark cleared; the vector keeps its length, so that no duplicate
    is created. *)
Lemma consolidate_Some (c : Cell) (projec : Vec) (face : nat) (currentDirection : Vec)
    (conns conns' : list CellModelConnection) :
  consolidate c projec face currentDirection conns = Some conns' →
  ∃ pre otherconn post,
    conns = pre ++ otherconn :: post
    ∧ conns' = pre ++ updateOtherconn c projec face currentDirection otherconn :: post
    ∧ (V.dot (normalized (V.sub (mcp_position (bounce_node0 (bounce otherconn)))
                                (prevposition c))) currentDirection
       >? MIN_MODEL_CONNECTION_SIMILARITY) = true
    ∧ dirty (updateOtherconn c projec face currentDirection otherconn) = false
    ∧ cmc_id (updateOtherconn c projec face currentDirection otherconn) = cmc_id otherconn
    ∧ length conns' = length conns.
Proof.
  revert conns'. induction conns as [|x conns IH]; intros conns'; [discriminate|].
  cbn [consolidate].
  destruct (V.dot _ currentDirection >? MIN_MODEL_CONNECTION_SIMILARITY) eqn:E.
  - intros [= <-]. exists [], x, conns. repeat split; auto.
  - destruct (consolidate c projec face currentDirection conns) as [l|]; [|discriminate].
    intros [= <-].
    destruct (IH l eq_refl) as (pre & o & post & -> & -> & Hsim & Hd & Hid & Hlen).
    exists (x :: pre), o, post. repeat split; auto.
    cbn [length app]. cbn [length app] in Hlen. now rewrite Hlen.
Qed.

(** Phase 2, case 1 is taken only when no connection of the key is similar
    enough. *)
Lemma consolidate_None (c : Cell) (projec : Vec) (face : nat) (currentDirection : Vec)
    (conns : list CellModelConnection) :
  consolidate c projec face currentDirection conns = None
  ↔ ∀ otherconn, otherconn ∈ conns →
      (V.dot (normalized (V.sub (mcp_position (bounce_node0 (bounce otherconn)))
                                (prevposition c))) currentDirection
       >? MIN_MODEL_CONNECTION_SIMILARITY) = false.
Proof.
  induction conns as [|x conns IH]; cbn [consolidate].
  - split; [|reflexivity]. intros _ o Ho. inversion Ho.
  - destruct (V.dot _ currentDirection >? MIN_MODEL_CONNECTION_SIMILARITY) eqn:E.
    + split; [discriminate|]. intros H.
      specialize (H x (list_elem_of_here _ _)). congruence.
    + destruct (consolidate c projec face currentDirection conns) as [l|].
      * split; [discriminate|]. intros H.
        assert (Hnone : Some l = None); [|discriminate Hnone].
        apply (proj2 IH). intros o Ho. apply H. now apply list_elem_of_further.
      * split; [|reflexivity]. intros _ o [->|Ho]%elem_of_cons; [exact E|].
        now apply (proj1 IH).
Qed.

(** Phase 3: the connections still dirty leave the container. *)
Lemma removeDirty_lookup (w : World) (m : ModelId) :
  cellModelConnections (removeDirty w) !! m
  = fmap (M := gmap CellId) (filter (λ conn : CellModelConnection, dirty conn = false))
    <$> cellModelConnections w !! m.
Proof.
  unfold removeDirty. cbn [cellModelConnections upd_cellModelConnections upd_cells].
  apply lookup_fmap.
Qed.

(** Phase 4: what the last clean-up leaves of a mesh entry.  Nothing when
    it was empty; otherwise its non-empty cell entries, even when there is
    none. *)
Lemma eraseEmpty_lookup (cmcs : CellModelConnectionContainer) (m : ModelId) :
  eraseEmpty cmcs !! m
  = match cmcs !! m with
    | Some per_cell =>
        if decide (per_cell = ∅) then None
        else Some (filter (λ kv, kv.2 ≠ []) per_cell)
    | None => None
    end.
Proof. unfold eraseEmpty. rewrite lookup_omap. now destruct (cmcs !! m). Qed.

End Sweep.

(** C9 on a cell whose only model connection is no longer justified: no
    face is near the cell.  The sweep marks the connection dirty and
    removes it, and erases the cell entry, but the mesh entry stays in the
    map with no connection left; only the next sweep erases it. *)
Theorem checkForCellModelCollisions_leaves_empty_mesh_entry :
  let sweep := checkForCellModelCollisions (T := Decimal.tools) [0] Scene.nothing_near in
  let w' := sweep Scene.resting_pair in
  modelConnections (membrane (cell w' 0)) = []
  ∧ cellModelConnections w' = {[5 := ∅]}
  ∧ cellModelConnections (sweep w') = ∅.
Proof. cbv zeta. repeat split; vm_compute; reflexivity. Qed.

(** ** Removal keeps the graph invariant *)

Section GraphRemoval.

Context {T : Tools}.
Local Open Scope float_scope.

Lemma NoDup_fmap_eq {A B} (f : A → B) (l : list A) (x y : A) :
  NoDup (f <$> l) → x ∈ l → y ∈ l → f x = f y → x = y.
Proof.
  induction l as [|a l IH]; intros Hnd Hx Hy Hf; [inversion Hx|].
  cbn [fmap list_fmap] in Hnd. apply NoDup_cons in Hnd as [Ha Hnd].
  apply elem_of_cons in Hx as [->|Hx], Hy as [->|Hy]; auto.
  - exfalso. apply Ha. rewrite Hf. now apply list_elem_of_fmap_2.
  - exfalso. apply Ha. rewrite <- Hf. now apply list_elem_of_fmap_2.
Qed.

Lemma disconnect_connectedCells (c0 c1 : CellId) (cc : ConnId) (w : World) (a b : CellId) :
  b ∈ connectedCells (cell (CCCM.disconnect c0 c1 cc w) a)
  ↔ b ∈ connectedCells (cell w a) ∧ ¬ (a = c0 ∧ b = c1) ∧ ¬ (a = c1 ∧ b = c0).
Proof.
  unfold CCCM.disconnect. cbv zeta.
  change (cell (upd_connections ?f ?w) a) with (cell w a).
  change (cell (upd_container ?f ?w) a) with (cell w a).
  rewrite !cell_on_cell.
  destruct (decide (c1 = a)) as [->|H1], (decide (c0 = a)) as [->|H0];
    cbn [connectedCells set_connectedCells set_membrane];
    repeat (destruct (decide _); try congruence);
    cbn [connectedCells set_connectedCells set_membrane];
    rewrite ?elem_of_difference, ?elem_of_singleton; intuition congruence.
Qed.

Lemma disconnect_conn_other (c0 c1 : CellId) (cc cc' : ConnId) (w : World) :
  cc ≠ cc' → conn (CCCM.disconnect c0 c1 cc w) cc' = conn w cc'.
Proof. intros Hne. unfold conn, CCCM.disconnect. simpl. now apply lookup_total_delete_ne. Qed.

Lemma disconnect_endpoints (c0 c1 : CellId) (cc : ConnId) (w : World) :
  let w' := CCCM.disconnect c0 c1 cc w in
  endpoints w' <$> container w' = endpoints w <$> filter (λ x, x ≠ cc) (container w).
Proof.
  cbv zeta.
  change (container (CCCM.disconnect c0 c1 cc w)) with (filter (λ x, x ≠ cc) (container w)).
  apply list_fmap_ext. intros i cc' Hcc'.
  apply list_elem_of_lookup_2, list_elem_of_filter in Hcc' as [Hne _].
  unfold endpoints. rewrite disconnect_conn_other by congruence. reflexivity.
Qed.

Lemma disconnect_cellConnections (c0 c1 : CellId) (cc : ConnId) (w : World)
    (a : CellId) (x : ConnId) :
  x ∈ cellConnections (membrane (cell (CCCM.disconnect c0 c1 cc w) a))
  ↔ x ∈ cellConnections (membrane (cell w a)) ∧ ¬ (x = cc ∧ (a = c0 ∨ a = c1)).
Proof.
  unfold CCCM.disconnect, CCCM.eraseFromVector. cbv zeta.
  change (cell (upd_connections ?f ?w) a) with (cell w a).
  change (cell (upd_container ?f ?w) a) with (cell w a).
  rewrite !cell_on_cell.
  destruct (decide (c1 = a)) as [->|H1], (decide (c0 = a)) as [->|H0];
    cbn [membrane cellConnections set_connectedCells set_membrane set_cellConnections];
    repeat (destruct (decide _); try congruence);
    cbn [membrane cellConnections set_connectedCells set_membrane set_cellConnections];
    rewrite ?list_elem_of_filter; intuition congruence.
Qed.

(** Removing a connection of the container that links [c0] and [c1] keeps
    the invariant. *)
Lemma disconnect_invariant (c0 c1 : CellId) (cc : ConnId) (w : World) :
  graph_invariant w → cc ∈ container w →
  endpoints w cc = make_ordered_cell_pair c0 c1 →
  graph_invariant (CCCM.disconnect c0 c1 cc w).
Proof.
  intros [Hown Hirr Huniq Hviews Hptr] Hcc Hlink.
  pose proof (disconnect_endpoints c0 c1 cc w) as Hends. cbv zeta in Hends.
  assert (Hnodes : (node0 (conn w cc) = c0 ∧ node1 (conn w cc) = c1)
                   ∨ (node0 (conn w cc) = c1 ∧ node1 (conn w cc) = c0)).
  { unfold endpoints in Hlink. now apply make_ordered_cell_pair_inj in Hlink. }
  split.
  - intros cc'.
    change (container (CCCM.disconnect c0 c1 cc w)) with (filter (λ x, x ≠ cc) (container w)).
    intros [Hne Hin]%list_elem_of_filter.
    unfold CCCM.disconnect. simpl. rewrite lookup_delete_ne by congruence. now apply Hown.
  - intros cc'.
    change (container (CCCM.disconnect c0 c1 cc w)) with (filter (λ x, x ≠ cc) (container w)).
    intros [Hne Hin]%list_elem_of_filter.
    rewrite disconnect_conn_other by congruence. now apply Hirr.
  - rewrite Hends. eapply sublist_NoDup; [exact Huniq|].
    apply fmap_sublist, sublist_filter.
  - intros a b. rewrite Hends, disconnect_connectedCells, Hviews. split.
    + intros ((Hab & Hin) & Hn0 & Hn1). split; [exact Hab|].
      apply list_elem_of_fmap in Hin as (cc' & Hcc' & Hin).
      apply list_elem_of_fmap. exists cc'. split; [exact Hcc'|].
      apply list_elem_of_filter. split; [|exact Hin]. intros ->.
      rewrite Hlink in Hcc'. apply make_ordered_cell_pair_inj in Hcc'. tauto.
    + intros (Hab & Hin).
      apply list_elem_of_fmap in Hin as (cc' & Hcc' & [Hne Hin]%list_elem_of_filter).
      split; [split; [exact Hab|]|].
      * apply list_elem_of_fmap. now exists cc'.
      * assert (Hother : make_ordered_cell_pair a b ≠ make_ordered_cell_pair c0 c1).
        { intros E. apply Hne.
          apply (NoDup_fmap_eq (endpoints w) (container w)); auto. congruence. }
        split; intros [-> ->]; apply Hother; [reflexivity|].
        apply make_ordered_cell_pair_comm.
  - intros a x. rewrite disconnect_cellConnections, Hptr.
    change (container (CCCM.disconnect c0 c1 cc w)) with (filter (λ y, y ≠ cc) (container w)).
    rewrite list_elem_of_filter. split.
    + intros [[Hx Hn] Hnot].
      assert (Hne : x ≠ cc).
      { intros ->. apply Hnot. split; [reflexivity|].
        destruct Hnodes as [[<- <-]|[<- <-]], Hn; auto. }
      rewrite disconnect_conn_other by congruence. auto.
    + intros [[Hne Hx] Hn]. rewrite disconnect_conn_other in Hn by congruence.
      split; [auto|]. intros [-> _]. now apply Hne.
Qed.

Lemma disconnect_all_invariant (ccs : list ConnId) :
  ∀ w,
    graph_invariant w → NoDup ccs → (∀ cc, cc ∈ ccs → cc ∈ container w) →
    graph_invariant
      (fold_left (fun w p => CCCM.disconnect p.1.1 p.1.2 p.2 w)
                 ((λ cc, (node0 (conn w cc), node1 (conn w cc), cc)) <$> ccs) w).
Proof.
  induction ccs as [|cc ccs IH]; intros w Hinv Hnd Hin; [exact Hinv|].
  apply NoDup_cons in Hnd as [Hcc Hnd].
  cbn [fmap list_fmap fold_left fst snd].
  set (w' := CCCM.disconnect (node0 (conn w cc)) (node1 (conn w cc)) cc w).
  assert (Hsame : (λ x, (node0 (conn w x), node1 (conn w x), x)) <$> ccs
                  = (λ x, (node0 (conn w' x), node1 (conn w' x), x)) <$> ccs).
  { apply list_fmap_ext. intros i x Hx. apply list_elem_of_lookup_2 in Hx.
    subst w'. rewrite disconnect_conn_other; [reflexivity|]. intros ->. contradiction. }
  rewrite Hsame. apply IH; [|exact Hnd|].
  - apply disconnect_invariant; [exact Hinv| |reflexivity]. apply Hin, list_elem_of_here.
  - intros x Hx. subst w'.
    change (container (CCCM.disconnect ?a ?b cc w)) with (filter (λ y, y ≠ cc) (container w)).
    apply list_elem_of_filter. split; [intros ->; contradiction|].
    now apply Hin, list_elem_of_further.
Qed.

(** [updateCellCellConnections] keeps the graph invariant: no pair of
    cells is ever linked twice over the create, update and remove cycles
    of a step. *)
Lemma updateCellCellConnections_invariant (dt : float_t) (w : World) :
  graph_invariant w → graph_invariant (updateCellCellConnections dt w).
Proof.
  intros Hinv.
  pose proof (same_geometry_refreshes (container w) w) as Hgeo1.
  fold (refreshAll w) in Hgeo1. set (w1 := refreshAll w) in *.
  destruct (updateCellCellConnections_loop dt w1 (container w1) (settled_refreshAll w)
              (λ cc H, H) [] w1 (conj (same_geometry_refl w1) (same_cache_refl w1)))
    as (w2 & Hscan & Hgeo2 & _).
  unfold updateCellCellConnections, updateCellCellConnections_scan. cbv zeta.
  fold w1. rewrite Hscan. cbn [app].
  assert (Hgeo : same_geometry w w2) by (eapply same_geometry_trans; eassumption).
  pose proof (graph_invariant_same_geometry w w2 Hgeo Hinv) as Hinv2.
  assert (Hsame : (λ cc, (node0 (conn w1 cc), node1 (conn w1 cc), cc))
                  <$> filter (λ cc, invalid w1 cc = true) (container w1)
                  = (λ cc, (node0 (conn w2 cc), node1 (conn w2 cc), cc))
                    <$> filter (λ cc, invalid w1 cc = true) (container w1)).
  { apply list_fmap_ext. intros i x _.
    now rewrite (sg_node0 _ _ Hgeo2), (sg_node1 _ _ Hgeo2). }
  rewrite Hsame. apply disconnect_all_invariant; [exact Hinv2| |].
  - apply NoDup_filter. rewrite (sg_container _ _ Hgeo2).
    eapply NoDup_fmap_1. exact (gi_unique _ Hinv2).
  - intros cc [_ Hcc]%list_elem_of_filter. now rewrite <- (sg_container _ _ Hgeo2).
Qed.

End GraphRemoval.

(** ** Removal of the cell-cell connections of a cell *)

Section CellRemoval.

Context {T : Tools}.

(** In a graph that satisfies the invariant, [CCCM::disconnect (con, c0,
    c1)] finds the connection of two neighbours and removes it. *)
Lemma disconnect_cells_invariant (c0 c1 : CellId) (w : World) :
  graph_invariant w → c1 ∈ connectedCells (cell w c0) →
  let w' := CCCM.disconnect_cells c0 c1 w in
  graph_invariant w'
  ∧ ∀ b, b ∈ connectedCells (cell w' c0) ↔ b ∈ connectedCells (cell w c0) ∧ b ≠ c1.
Proof.
  intros Hinv Hc1 w'.
  destruct (proj1 (gi_views _ Hinv c0 c1) Hc1) as [Hne Hin].
  apply list_elem_of_fmap in Hin as (cc & Hcc & Hin).
  assert (Hnodes : (node0 (conn w cc) = c0 ∧ node1 (conn w cc) = c1)
                   ∨ (node0 (conn w cc) = c1 ∧ node1 (conn w cc) = c0)).
  { unfold endpoints in Hcc. symmetry in Hcc.
    now apply make_ordered_cell_pair_inj in Hcc. }
  assert (Hptr : cc ∈ cellConnections (membrane (cell w c0))).
  { apply (gi_pointers _ Hinv). split; [exact Hin|]. tauto. }
  subst w'. unfold CCCM.disconnect_cells.
  destruct (List.find _ _) as [cc'|] eqn:Efind.
  - apply List.find_some in Efind as [Hin' Hlinks].
    apply list_elem_of_In, (gi_pointers _ Hinv) in Hin' as [Hin' _].
    unfold CCCM.links in Hlinks. apply bool_decide_eq_true in Hlinks.
    assert (Hends : endpoints w cc' = make_ordered_cell_pair c0 c1).
    { unfold endpoints. destruct Hlinks as [[-> ->]|[-> ->]]; [reflexivity|].
      apply make_ordered_cell_pair_comm. }
    split; [now apply disconnect_invariant|].
    intros b. rewrite disconnect_connectedCells. split.
    + intros (Hb & Hn & _). split; [exact Hb|]. intros ->. now apply Hn.
    + intros [Hb Hn]. split; [exact Hb|]. split; intros [E1 E2]; congruence.
  - exfalso.
    pose proof (List.find_none _ _ Efind cc (proj1 (list_elem_of_In _ _) Hptr)) as Hno.
    unfold CCCM.links in Hno. apply bool_decide_eq_false in Hno. tauto.
Qed.

Lemma disconnect_all_cells (c0 : CellId) (cop : list CellId) :
  ∀ w,
    graph_invariant w → NoDup cop →
    (∀ c1, c1 ∈ cop → c1 ∈ connectedCells (cell w c0)) →
    let w' := fold_left (fun w c1 => CCCM.disconnect_cells c0 c1 w) cop w in
    graph_invariant w'
    ∧ ∀ b, b ∈ connectedCells (cell w' c0) ↔ b ∈ connectedCells (cell w c0) ∧ b ∉ cop.
Proof.
  induction cop as [|c1 cop IH]; intros w Hinv Hnd Hin.
  - cbn. split; [exact Hinv|]. intros b. split; [|tauto].
    intros Hb. split; [exact Hb|]. intros H. inversion H.
  - apply NoDup_cons in Hnd as [Hc1 Hnd]. cbn [fold_left].
    destruct (disconnect_cells_invariant c0 c1 w Hinv (Hin c1 (list_elem_of_here _ _)))
      as [Hinv1 Hset1].
    destruct (IH (CCCM.disconnect_cells c0 c1 w) Hinv1 Hnd) as [Hinv' Hset'].
    + intros c Hc. apply Hset1. split; [now apply Hin, list_elem_of_further|].
      intros ->. contradiction.
    + split; [exact Hinv'|]. intros b. rewrite Hset', Hset1, not_elem_of_cons. tauto.
Qed.

(** For the cell-cell connections the removal is complete: in a graph that
    satisfies the invariant, [disconnectAndDeleteAllConnections] leaves no
    connection of the container with [c0] as an endpoint, no neighbour set
    that mentions [c0], and no connection pointer in the membrane of
    [c0]. *)
Lemma disconnectAndDeleteAllConnections_cell_cell (c0 : CellId) (w : World) :
  graph_invariant w →
  let w' := disconnectAndDeleteAllConnections c0 w in
  graph_invariant w'
  ∧ (∀ cc, cc ∈ container w' → node0 (conn w' cc) ≠ c0 ∧ node1 (conn w' cc) ≠ c0)
  ∧ (∀ a, c0 ∉ connectedCells (cell w' a))
  ∧ connectedCells (cell w' c0) = ∅
  ∧ cellConnections (membrane (cell w' c0)) = [].
Proof.
  intros Hinv w'. subst w'. unfold disconnectAndDeleteAllConnections.
  destruct (disconnect_all_cells c0 (elements (connectedCells (cell w c0))) w Hinv
              (NoDup_elements _) (λ c1 H, proj1 (elem_of_elements _ _) H))
    as [Hinv' Hset].
  set (w' := fold_left _ _ w) in *.
  assert (Hnone : ∀ b, b ∉ connectedCells (cell w' c0)).
  { intros b Hb. apply Hset in Hb as [Hb Hnot]. apply Hnot. now apply elem_of_elements. }
  assert (Hfree : ∀ cc, cc ∈ container w' →
            node0 (conn w' cc) ≠ c0 ∧ node1 (conn w' cc) ≠ c0).
  { intros cc Hcc. pose proof (gi_irreflexive _ Hinv' cc Hcc) as Hirr.
    split; intros E.
    - apply (Hnone (node1 (conn w' cc))). apply (gi_views _ Hinv').
      split; [congruence|]. apply list_elem_of_fmap. exists cc.
      split; [|exact Hcc]. unfold endpoints. now rewrite E.
    - apply (Hnone (node0 (conn w' cc))). apply (gi_views _ Hinv').
      split; [congruence|]. apply list_elem_of_fmap. exists cc.
      split; [|exact Hcc]. unfold endpoints. rewrite E.
      apply make_ordered_cell_pair_comm. }
  split; [exact Hinv'|]. split; [exact Hfree|]. split; [|split].
  - intros a Ha. apply (gi_views _ Hinv') in Ha as [Hne Hin].
    apply (Hnone a). apply (gi_views _ Hinv'). split; [congruence|].
    now rewrite make_ordered_cell_pair_comm.
  - apply set_eq. intros b. split; [intros Hb; now apply Hnone in Hb|].
    intros Hb. inversion Hb.
  - destruct (cellConnections (membrane (cell w' c0))) as [|cc l] eqn:E; [reflexivity|].
    exfalso.
    assert (Hcc : cc ∈ cellConnections (membrane (cell w' c0)))
      by (rewrite E; apply list_elem_of_here).
    apply (gi_pointers _ Hinv') in Hcc as [Hcc Hn].
    destruct (Hfree cc Hcc). tauto.
Qed.

End CellRemoval.
